(** * OpenColorIO-Config-ACES: [utilities/common.py]

    A shallow embedding of the common utilities of the package
    ([first_item], [common_ancestor], [paths_common_ancestor],
    [vivification], [vivified_to_dict], [message_box], [required],
    [multi_replace]) and the properties stated for them.

    Part I holds the model, Part II the lemmas and theorems. *)

From Stdlib Require Import ZArith Ascii String.
From stdpp Require Import base tactics option list strings pretty gmap.

Set Warnings "-register-all".

Local Open Scope string_scope.
Local Open Scope list_scope.
Local Open Scope nat_scope.

(** * Part I: the model *)

(** ** Python runtime: exceptions and results *)

(** The exceptions the modelled functions can raise. *)
Inductive exn : Type :=
  | ValueError (msg : string)
  | TypeError (msg : string)
  | KeyError (key : string)
  | ImportError (msg : string)
  | RecursionError
  | re_error (msg : string).

(** The outcome of a call: a returned value or a raised exception. *)
Inductive result (X : Type) : Type :=
  | Ok (x : X)
  | Raise (e : exn).
Arguments Ok {X} x.
Arguments Raise {X} e.

#[global] Instance result_ret : MRet result := λ X x, Ok x.
#[global] Instance result_bind : MBind result := λ X Y f m,
  match m with
  | Ok x => f x
  | Raise e => Raise e
  end.

(** A call with visible effects: the events it produced, in order, and how it
    ended. An exception ends the call; the events before it stay. *)
Record eff (E X : Type) : Type := Eff {
  trace : list E;
  outcome : result X;
}.
Arguments Eff {E X} trace outcome.
Arguments trace {E X} e.
Arguments outcome {E X} e.

#[global] Instance eff_ret {E} : MRet (eff E) := λ X x, Eff [] (Ok x).
#[global] Instance eff_bind {E} : MBind (eff E) := λ X Y f m,
  match outcome m with
  | Ok x => Eff (trace m ++ trace (f x)) (outcome (f x))
  | Raise e => Eff (trace m) (Raise e)
  end.

(** One event. *)
Definition emit {E} (e : E) : eff E unit := Eff [e] (Ok ()).

(** A call without events. *)
Definition lift {E X} (r : result X) : eff E X := Eff [] r.

(** [for x in items: body(x)]. *)
Fixpoint for_each {E X} (body : X → eff E unit) (items : list X)
    : eff E unit :=
  match items with
  | [] => mret ()
  | x :: items' => body x;; for_each body items'
  end.

(** The double quote, as a string. *)
Definition dquote : string := String "034"%char EmptyString.

(** Python's [<] on the elements of a sequence. *)
Class PyLt (A : Type) := py_lt : A → A → bool.

#[global] Instance ascii_py_lt : PyLt ascii := λ a b,
  bool_decide (N_of_ascii a < N_of_ascii b)%N.

(** ** Iterables and [first_item] *)

(** An object as [first_item] sees it: its truth value ([not iterable]) and
    what [for item in iterable] yields (or raises, for a non-iterable). *)
Record pyobject (A : Type) : Type := PyObject {
  truth : bool;
  iteration : result (list A);
}.
Arguments PyObject {A} truth iteration.
Arguments truth {A} p.
Arguments iteration {A} p.

(** [None]: falsy, not iterable. *)
Definition py_none {A} : pyobject A :=
  PyObject false (Raise (TypeError "'NoneType' object is not iterable")).

(** A list, tuple or string: truthy when non-empty. *)
Definition py_seq {A} (items : list A) : pyobject A :=
  PyObject (bool_decide (items ≠ [])) (Ok items).

(** A generator or iterator object: always truthy; [pending] is what is left
    to yield. *)
Definition py_generator {A} (pending : list A) : pyobject A :=
  PyObject true (Ok pending).

(** [first_item(iterable, default=None)]; Python's [None] is [None]. *)
Definition first_item {A} (iterable : pyobject A) (default : option A)
    : result (option A) :=
  if negb (truth iterable) then Ok default
  else
    items ← iteration iterable;
    match items with
    | item :: _ => Ok (Some item)
    | [] => Ok None
    end.

(** ** SequenceOps: [common_ancestor] and [paths_common_ancestor] *)

Section sequence_ops.
Context {A : Type} `{Countable A} `{PyLt A}.

(** [zip( *args )]: the tuples of the i-th items, up to the shortest
    argument; nothing for no argument. *)
Fixpoint zip_star (args : list (list A)) : list (list A) :=
  match args with
  | [] => []
  | a :: rest =>
      match rest with
      | [] => map (λ x, [x]) a
      | _ :: _ => zip_with cons a (zip_star rest)
      end
  end.

(** [a < b] on tuples, lists and strings: decided at the first index where
    the items differ, else by length. *)
Fixpoint seq_lt (a b : list A) : bool :=
  match a, b with
  | [], [] => false
  | [], _ :: _ => true
  | _ :: _, [] => false
  | x :: a', y :: b' => if decide (x = y) then seq_lt a' b' else py_lt x y
  end.

(** [min(args)]: the first item no later item is smaller than. *)
Definition py_min (args : list (list A)) : result (list A) :=
  match args with
  | [] => Raise (ValueError "min() arg is an empty sequence")
  | first :: rest =>
      Ok (fold_left (λ cur item, if seq_lt item cur then item else cur)
                    rest first)
  end.

(** [array.index(x)]: the first index holding a set equal to [x]. *)
Fixpoint list_index (array : list (gset A)) (x : gset A) : result nat :=
  match array with
  | [] => Raise (ValueError "x is not in list")
  | y :: array' =>
      if decide (y = x) then Ok 0
      else i ← list_index array' x; Ok (S i)
  end.

(** [array.index(x)] where [x] may be [None]. *)
Definition index_of (array : list (gset A)) (x : option (gset A))
    : result nat :=
  match x with
  | Some s => list_index array s
  | None => Raise (ValueError "None is not in list")
  end.

(** [seq[:stop]] where [seq] may be [None]. *)
Definition slice_to (seq : option (list A)) (stop : nat)
    : result (list A) :=
  match seq with
  | Some l => Ok (take stop l)
  | None => Raise (TypeError "'NoneType' object is not subscriptable")
  end.

Definition common_ancestor (args : list (list A)) : result (list A) :=
  let array : list (gset A) := map list_to_set (zip_star args) in
  let divergence := filter (λ i : gset A, 1 < size i) array in
  if truth (py_seq divergence) then
    first ← first_item (py_seq args) None;
    diverging ← first_item (py_seq divergence) None;
    stop ← index_of array diverging;
    slice_to first stop
  else py_min args.

(** *** Vocabulary of the specification *)

(** Position [i] lies within every input, hence within the shortest. *)
Definition scanned (args : list (list A)) (i : nat) : Prop :=
  ∀ a, a ∈ args → i < length a.

(** All inputs that have a position [i] hold the same value there. *)
Definition agree_at (args : list (list A)) (i : nat) : Prop :=
  ∀ a b x y, a ∈ args → b ∈ args → a !! i = Some x → b !! i = Some y → x = y.

(** [j] is the first scanned index at which not all inputs agree. *)
Definition first_disagreement (args : list (list A)) (j : nat) : Prop :=
  scanned args j ∧ ¬ agree_at args j ∧ ∀ i, i < j → agree_at args i.

(** [m] is a lexicographic minimum of the inputs, for Python's [<]. *)
Definition lex_minimum (args : list (list A)) (m : list A) : Prop :=
  m ∈ args ∧ ∀ x, x ∈ args → seq_lt x m = false.
End sequence_ops.

(** [a < b] on strings, by code points. *)
#[global] Instance string_py_lt : PyLt string := λ a b,
  seq_lt (list_ascii_of_string a) (list_ascii_of_string b).


(** [path.split(sep)] for a separator of one character. *)
Fixpoint str_split (sep : ascii) (s : string) : list string :=
  match s with
  | EmptyString => [EmptyString]
  | String c s' =>
      if decide (c = sep) then EmptyString :: str_split sep s'
      else match str_split sep s' with
           | [] => [String c EmptyString]
           | word :: words => String c word :: words
           end
  end.

(** [sep.join(parts)]. *)
Fixpoint str_join (sep : string) (parts : list string) : string :=
  match parts with
  | [] => EmptyString
  | part :: parts' =>
      match parts' with
      | [] => part
      | _ :: _ => part +:+ sep +:+ str_join sep parts'
      end
  end.

(** [paths_common_ancestor( *args )], for the platform's separator [os_sep]
    ([os.sep]: one character, a slash on POSIX and a backslash on Windows). *)
Definition paths_common_ancestor (os_sep : ascii) (args : list string)
    : result string :=
  ancestor ← common_ancestor (map (str_split os_sep) args);
  Ok (str_join (String os_sep EmptyString) ancestor).

(** The character [c] occurs in [s]. *)
Fixpoint occurs (c : ascii) (s : string) : bool :=
  match s with
  | EmptyString => false
  | String c' s' => bool_decide (c' = c) || occurs c s'
  end.

(** ** CapabilityGate: the probes, their registry and [required] *)

(** What a call of the wrapped function does that can be seen from outside:
    the probes it calls and the call of the decorated function. *)
Inductive gate_event (Args : Type) : Type :=
  | Probe (requirement : string) (raise_exception : bool)
  | Invoke (args : Args).
Arguments Probe {Args} requirement raise_exception.
Arguments Invoke {Args} args.

Section capability_gate.
(** What [import module] does where the program runs: [None] when the module
    is imported, [Some error] when it raises [ImportError], [error] being the
    text of that exception. *)
Context (import_error : string → option string).

Definition is_colour_installed (raise_exception : bool) : result bool :=
  match import_error "colour" with
  | None => Ok true
  | Some error =>
      if raise_exception then
        Raise (ImportError
          (dquote +:+ "Colour" +:+ dquote
           +:+ " related API features are not available: "
           +:+ dquote +:+ error +:+ dquote +:+ "."))
      else Ok false
  end.

Definition is_jsonpickle_installed (raise_exception : bool) : result bool :=
  match import_error "jsonpickle" with
  | None => Ok true
  | Some error =>
      if raise_exception then
        Raise (ImportError
          (dquote +:+ "jsonpickle" +:+ dquote
           +:+ " related API features, e.g. serialization, are not available: "
           +:+ dquote +:+ error +:+ dquote +:+ "."))
      else Ok false
  end.

Definition is_networkx_installed (raise_exception : bool) : result bool :=
  match import_error "networkx" with
  | None => Ok true
  | Some error =>
      if raise_exception then
        Raise (ImportError
          (dquote +:+ "NetworkX" +:+ dquote
           +:+ " related API features are not available: "
           +:+ dquote +:+ error +:+ dquote +:+ "."))
      else Ok false
  end.

Definition REQUIREMENTS_TO_CALLABLE : gmap string (bool → result bool) :=
  list_to_map [
    ("Colour", is_colour_installed);
    ("jsonpickle", is_jsonpickle_installed);
    ("NetworkX", is_networkx_installed)
  ].

(** [mapping[key]] on a dict. *)
Definition getitem {V} (mapping : gmap string V) (key : string) : result V :=
  match mapping !! key with
  | Some v => Ok v
  | None => Raise (KeyError key)
  end.

(** [REQUIREMENTS_TO_CALLABLE[requirement](raise_exception=True)], the body
    of the loop of [wrapped]. *)
Definition check_requirement {Args} (requirement : string)
    : eff (gate_event Args) unit :=
  probe ← lift (getitem REQUIREMENTS_TO_CALLABLE requirement);
  emit (Probe requirement true);;
  lift (probe true);;
  mret ().

(** [required( *requirements )(function)( *args )]: the body of [wrapped]. *)
Definition required {Args R} (requirements : list string)
    (function : Args → result R) (args : Args) : eff (gate_event Args) R :=
  for_each check_requirement requirements;;
  emit (Invoke args);;
  lift (function args).

(** *** Vocabulary of the specification *)

(** The name is in the registry. *)
Definition registered (requirement : string) : Prop :=
  is_Some (REQUIREMENTS_TO_CALLABLE !! requirement).

(** The probe of the name, asked to raise on failure, returns. *)
Definition probe_succeeds (requirement : string) : Prop :=
  ∃ probe v, REQUIREMENTS_TO_CALLABLE !! requirement = Some probe ∧
             probe true = Ok v.

(** The probe of the name, asked to raise on failure, raises [ImportError]. *)
Definition probe_fails (requirement : string) (msg : string) : Prop :=
  ∃ probe, REQUIREMENTS_TO_CALLABLE !! requirement = Some probe ∧
           probe true = Raise (ImportError msg).
End capability_gate.

(** An environment for examples: only [colour] can be imported. *)
Definition only_colour_installed (module : string) : option string :=
  if decide (module = "colour") then None
  else Some ("No module named '" +:+ module +:+ "'").

(** ** NestedMap: [vivification] and [vivified_to_dict] *)

(** Dicts are objects with an identity: a value refers to one by its
    address, and two references to one dict see the same entries. *)
Inductive value : Type :=
  | VNone
  | VInt (z : Z)
  | VStr (s : string)
  | VRef (address : nat).

(** A dict: a [defaultdict(vivification)] or a plain [dict], with its
    entries in insertion order. *)
Record object : Type := Object {
  is_defaultdict : bool;
  entries : list (string * value);
}.

(** The objects allocated so far; the address of an object is its index. *)
Abbreviation heap := (list object).

(** [isinstance(v, defaultdict)]. *)
Definition is_vivified (h : heap) (v : value) : bool :=
  match v with
  | VRef address =>
      match h !! address with
      | Some o => is_defaultdict o
      | None => false
      end
  | _ => false
  end.

(** [vivification()]: a new, empty [defaultdict(vivification)]. *)
Definition vivification (h : heap) : heap * value :=
  (h ++ [Object true []], VRef (length h)).

(** The value of a key among the entries of a dict. *)
Fixpoint dict_get (key : string) (items : list (string * value))
    : option value :=
  match items with
  | [] => None
  | (k, v) :: items' => if decide (k = key) then Some v else dict_get key items'
  end.

(** The entries after [d[key] = x]: the value of a key already there is
    replaced, a new key goes last. *)
Fixpoint dict_set (key : string) (x : value) (items : list (string * value))
    : list (string * value) :=
  match items with
  | [] => [(key, x)]
  | (k, v) :: items' =>
      if decide (k = key) then (k, x) :: items'
      else (k, v) :: dict_set key x items'
  end.

(** [v[key]]; on a [defaultdict(vivification)] a missing key is given a new
    vivified child first, which changes the dict. *)
Definition vivified_getitem (h : heap) (v : value) (key : string)
    : result (heap * value) :=
  match v with
  | VRef address =>
      match h !! address with
      | Some o =>
          match dict_get key (entries o) with
          | Some x => Ok (h, x)
          | None =>
              if is_defaultdict o then
                let '(h, child) := vivification h in
                Ok (<[address := Object true (entries o ++ [(key, child)])]> h,
                    child)
              else Raise (KeyError key)
          end
      | None => Raise (TypeError "object is not subscriptable")
      end
  | _ => Raise (TypeError "object is not subscriptable")
  end.

(** [v[key] = x]. *)
Definition vivified_setitem (h : heap) (v : value) (key : string) (x : value)
    : result heap :=
  match v with
  | VRef address =>
      match h !! address with
      | Some o =>
          Ok (<[address := Object (is_defaultdict o)
                             (dict_set key x (entries o))]> h)
      | None => Raise (TypeError "object does not support item assignment")
      end
  | _ => Raise (TypeError "object does not support item assignment")
  end.

(** [{key: convert(value) for key, value in items}], the conversions in
    order, each on the heap the one before left. *)
Fixpoint convert_entries (convert : heap → value → result (heap * value))
    (h : heap) (items : list (string * value))
    : result (heap * list (string * value)) :=
  match items with
  | [] => Ok (h, [])
  | (key, v) :: items' =>
      r ← convert h v;
      rs ← convert_entries convert r.1 items';
      Ok (rs.1, (key, r.2) :: rs.2)
  end.

(** [vivified_to_dict(vivified)]. [depth] is the number of nested calls the
    interpreter still allows: recursion deeper than that raises
    [RecursionError]. *)
Fixpoint vivified_to_dict (depth : nat) (h : heap) (vivified : value)
    : result (heap * value) :=
  match depth with
  | 0 => Raise RecursionError
  | S depth' =>
      if is_vivified h vivified then
        match vivified with
        | VRef address =>
            match h !! address with
            | Some o =>
                r ← convert_entries (vivified_to_dict depth') h (entries o);
                Ok (r.1 ++ [Object false r.2], VRef (length r.1))
            | None => Ok (h, vivified)
            end
        | _ => Ok (h, vivified)
        end
      else Ok (h, vivified)
  end.

(** *** Vocabulary of the specification *)

(** A nested mapping as a value: a leaf, which is any value that is not a
    vivified node, or a mapping from keys to nested mappings, vivifying or
    plain. *)
Inductive tree : Type :=
  | Leaf (v : value)
  | Dict (vivifying : bool) (children : list (string * tree)).

(** The value [v] on the heap [h] is the nested mapping [t]. *)
Inductive repr (h : heap) : tree → value → Prop :=
  | repr_leaf v :
      is_vivified h v = false → repr h (Leaf v) v
  | repr_dict address vivifying items children :
      h !! address = Some (Object vivifying items) →
      Forall2 (λ item child, item.1 = child.1 ∧ repr h child.2 item.2)
              items children →
      repr h (Dict vivifying children) (VRef address).

(** Every mapping of the tree is vivifying. *)
Fixpoint vivified (t : tree) : Prop :=
  match t with
  | Leaf _ => True
  | Dict vivifying children =>
      vivifying = true ∧
      (fix all (children : list (string * tree)) : Prop :=
         match children with
         | [] => True
         | (_, child) :: children' => vivified child ∧ all children'
         end) children
  end.

(** Every mapping of the tree is a plain dict. *)
Fixpoint plain (t : tree) : Prop :=
  match t with
  | Leaf _ => True
  | Dict vivifying children =>
      vivifying = false ∧
      (fix all (children : list (string * tree)) : Prop :=
         match children with
         | [] => True
         | (_, child) :: children' => plain child ∧ all children'
         end) children
  end.

(** The number of mappings nested in one another. *)
Fixpoint nesting (t : tree) : nat :=
  match t with
  | Leaf _ => 0
  | Dict _ children =>
      S ((fix deepest (children : list (string * tree)) : nat :=
            match children with
            | [] => 0
            | (_, child) :: children' => nesting child `max` deepest children'
            end) children)
  end.

(** The plain nested mapping of the specification: the same keys in the
    same order, every vivifying mapping a plain one, the leaves as they
    are. *)
Fixpoint materialize (t : tree) : tree :=
  match t with
  | Leaf v => Leaf v
  | Dict vivifying children =>
      Dict (if vivifying then false else vivifying)
           (map (λ child, (child.1, materialize child.2)) children)
  end.

(** The heap [h'] is [h] with new plain dicts: every object of [h] is in
    [h'] at its address, unchanged. *)
Definition extends (h h' : heap) : Prop :=
  ∃ new, h' = h ++ new ∧ Forall (λ o, is_defaultdict o = false) new.

(** The program of the docstring: [vivified = vivification()],
    [vivified['my']['attribute'] = 1], [vivified_to_dict(vivified)]. *)
Definition vivify_then_set (depth : nat) : result (heap * value) :=
  let '(h, root) := vivification [] in
  r ← vivified_getitem h root "my";
  h ← vivified_setitem r.1 r.2 "attribute" (VInt 1);
  vivified_to_dict depth h root.

(** ** TextBox: [message_box] and the [textwrap.TextWrapper] it uses *)

(** [len(s)]. *)
Definition len (s : string) : Z := Z.of_nat (String.length s).

(** [s * n]: the empty string for [n <= 0]. *)
Definition str_repeat (s : string) (n : Z) : string :=
  Nat.iter (Z.to_nat n) (String.append s) EmptyString.

(** [for c in s]: the characters of a string, each as a string. *)
Definition str_iter (s : string) : list string :=
  map (λ c, String c EmptyString) (list_ascii_of_string s).

(** [c.isspace()] for the code points below 256. *)
Definition is_space (c : ascii) : bool :=
  let n := nat_of_ascii c in
  ((9 <=? n) && (n <=? 13)) || ((28 <=? n) && (n <=? 32))
  || (n =? 133) || (n =? 160).

(** [s.strip() == ''], that is all of [s] is whitespace. *)
Fixpoint all_space (s : string) : bool :=
  match s with
  | EmptyString => true
  | String c s' => is_space c && all_space s'
  end.

(** [s.expandtabs(tabsize)] from a given column: a tab becomes the spaces up
    to the next multiple of [tabsize]; a line feed or carriage return starts
    a new line. *)
Fixpoint expandtabs_from (tabsize column : nat) (s : string) : string :=
  match s with
  | EmptyString => EmptyString
  | String c s' =>
      if decide (c = "009"%char) then
        if decide (0 < tabsize) then
          let incr := tabsize - column mod tabsize in
          str_repeat " " (Z.of_nat incr)
          +:+ expandtabs_from tabsize (column + incr) s'
        else expandtabs_from tabsize column s'
      else
        String c (expandtabs_from tabsize
          (if decide (c = "010"%char ∨ c = "013"%char) then 0
           else S column) s')
  end.

(** [s.expandtabs()]; the tab size defaults to 8. *)
Definition expandtabs (s : string) : string := expandtabs_from 8 0 s.

Section text_box.
(** [TextWrapper.wordsep_re.split(text)]: the text cut at the word
    separators of [textwrap], separators included. *)
Context (wordsep_split : string → list string).

(** [TextWrapper._split_chunks(text)] with [expand_tabs=True],
    [replace_whitespace=False] and [break_on_hyphens=True]: tabs expanded,
    the text split, empty chunks dropped. *)
Definition split_chunks (text : string) : list string :=
  filter (λ c, c ≠ EmptyString) (wordsep_split (expandtabs_from 8 0 text)).

(** The inner loop of [_wrap_chunks]: chunks go to the current line while
    they fit in [width]. *)
Fixpoint fill_line (width : Z) (cur_line : list string) (cur_len : Z)
    (chunks : list string) : list string * Z * list string :=
  match chunks with
  | [] => (cur_line, cur_len, [])
  | chunk :: chunks' =>
      if (cur_len + len chunk <=? width)%Z
      then fill_line width (cur_line ++ [chunk]) (cur_len + len chunk)%Z chunks'
      else (cur_line, cur_len, chunks)
  end.

(** [_handle_long_word] with [break_long_words=False]: a chunk too long for
    any line goes on a line of its own, when the current line is empty. *)
Definition handle_long_word (chunks cur_line : list string)
    : list string * list string :=
  match cur_line, chunks with
  | [], chunk :: chunks' => (chunks', [chunk])
  | _, _ => (chunks, cur_line)
  end.

(** [if chunks and len(chunks[-1]) > width: self._handle_long_word(...)]. *)
Definition long_word_step (width : Z) (chunks cur_line : list string)
    : list string * list string :=
  match chunks with
  | chunk :: _ =>
      if (width <? len chunk)%Z then handle_long_word chunks cur_line
      else (chunks, cur_line)
  | [] => (chunks, cur_line)
  end.

(** With [drop_whitespace=True]: a whitespace chunk at the start of a line
    (not the first line) is dropped. *)
Definition drop_leading_space (lines chunks : list string) : list string :=
  match chunks with
  | chunk :: chunks' =>
      if all_space chunk && bool_decide (lines ≠ []) then chunks' else chunks
  | [] => []
  end.

(** With [drop_whitespace=True]: a whitespace chunk at the end of the line
    is dropped. *)
Definition drop_trailing_space (cur_line : list string) : list string :=
  match last cur_line with
  | Some chunk => if all_space chunk then removelast cur_line else cur_line
  | None => cur_line
  end.

(** One turn of the outer loop of [_wrap_chunks], for [chunks] not empty:
    the chunks left and the lines so far. *)
Definition wrap_line (width : Z) (lines chunks : list string)
    : list string * list string :=
  let chunks := drop_leading_space lines chunks in
  let '(cur_line, _, chunks) := fill_line width [] 0 chunks in
  let '(chunks, cur_line) := long_word_step width chunks cur_line in
  let cur_line := drop_trailing_space cur_line in
  let lines :=
    if bool_decide (cur_line ≠ []) then lines ++ [String.concat "" cur_line]
    else lines in
  (chunks, lines).

(** [while chunks: ...], the outer loop of [_wrap_chunks]. Every turn takes
    at least one chunk away, so [fuel] as large as the number of chunks lets
    the loop run until no chunk is left ([wrap_loop_fuel]). *)
Fixpoint wrap_loop (fuel : nat) (width : Z) (lines chunks : list string)
    : list string :=
  match chunks, fuel with
  | [], _ => lines
  | _ :: _, 0 => lines
  | _ :: _, S fuel' =>
      let '(chunks', lines') := wrap_line width lines chunks in
      wrap_loop fuel' width lines' chunks'
  end.

(** [TextWrapper._wrap_chunks(chunks)]. *)
Definition wrap_chunks (width : Z) (chunks : list string)
    : result (list string) :=
  if (width <=? 0)%Z
  then Raise (ValueError ("invalid width " +:+ pretty width +:+ " (must be > 0)"))
  else Ok (wrap_loop (length chunks) width [] chunks).

(** [TextWrapper(width=width, break_long_words=False,
    replace_whitespace=False).wrap(text)]. *)
Definition wrap (width : Z) (text : string) : result (list string) :=
  wrap_chunks width (split_chunks text).

(** [[f(x) for x in items]] where [f] may raise. *)
Fixpoint map_result {X Y} (f : X → result Y) (items : list X)
    : result (list Y) :=
  match items with
  | [] => Ok []
  | x :: items' => y ← f x; ys ← map_result f items'; Ok (y :: ys)
  end.

(** [inner(text)], the nested function of [message_box]. *)
Definition inner (width padding : Z) (text : string) : string :=
  "*" +:+ str_repeat " " padding +:+ text
  +:+ str_repeat " " (width - len text - padding * 2 - 2)
  +:+ str_repeat " " padding +:+ "*".

(** [message_box(message, width, padding, print_callable)]; the events are
    the calls of [print_callable], one line each. *)
Definition message_box (message : string) (width padding : Z)
    : eff string bool :=
  let ideal_width := (width - padding * 2 - 2)%Z in
  emit (str_repeat "=" width);;
  emit (inner width padding "");;
  lines ← lift (map_result (wrap ideal_width) (str_split "010" message));
  let lines :=
    map (λ line, if bool_decide (length line = 0) then str_iter " " else line)
        lines in
  for_each (λ line, emit (inner width padding (expandtabs line)))
           (concat lines);;
  emit (inner width padding "");;
  emit (str_repeat "=" width);;
  mret true.
End text_box.

(** The rows printed between the first line and the last. *)
Definition interior_rows (printed : list string) : list string :=
  removelast (tail printed).

(** The whitespace of [textwrap]: tab, line feed, vertical tab, form feed,
    carriage return and space. *)
Definition is_wrap_space (c : ascii) : bool :=
  let n := nat_of_ascii c in ((9 <=? n) && (n <=? 13)) || (n =? 32).

(** The runs of whitespace and of other characters of a text, in order. *)
Fixpoint runs (s : string) : list string :=
  match s with
  | EmptyString => []
  | String c s' =>
      match runs s' with
      | (String c' _ as run) :: rest =>
          if bool_decide (is_wrap_space c = is_wrap_space c')
          then String c run :: rest
          else String c EmptyString :: run :: rest
      | _ => [String c EmptyString]
      end
  end.

(** [wordsep_re.split(text)] for a text without hyphens or dashes, where the
    separators are the runs of whitespace and the words the runs between
    them; the empty text gives one empty piece. *)
Definition wordsep_split_plain (text : string) : list string :=
  match runs text with
  | [] => [EmptyString]
  | pieces => pieces
  end.

(** The message of the examples in the docstring of [message_box]. *)
Definition lorem_ipsum : string :=
  "Lorem ipsum dolor sit amet, consectetur adipiscing elit, "
  +:+ "sed do eiusmod tempor incididunt ut labore et dolore magna "
  +:+ "aliqua.".

(** ** PatternRewriter: [multi_replace] *)

Section pattern_rewriter.
(** [re.sub(pattern, repl, string)] of the standard library; it raises
    [re.error] for a pattern that does not compile. *)
Context (re_sub : string → string → string → result string).

(** [multi_replace(name, patterns)]; [patterns] stands for
    [patterns.items()], the pairs of the dict in insertion order. *)
Fixpoint multi_replace (name : string) (patterns : list (string * string))
    : result string :=
  match patterns with
  | [] => Ok name
  | (pattern, substitution) :: patterns' =>
      name ← re_sub pattern substitution name;
      multi_replace name patterns'
  end.
End pattern_rewriter.

(** *** A fragment of [re.sub]

    Patterns made of literal characters, [.], the classes [\w], [\d] and
    [\s], escaped punctuation, and the greedy [+] after one of these;
    replacements without backslash; ASCII text. Outside of this fragment the
    model gives no answer ([None]). *)

Inductive atom : Type :=
  | Lit (c : ascii)
  | AnyChar
  | WordChar
  | DigitChar
  | SpaceChar.

(** An atom, and whether [+] follows it. *)
Record item : Type := Item { item_atom : atom; item_plus : bool }.

Definition is_digit (c : ascii) : bool :=
  let n := nat_of_ascii c in (48 <=? n) && (n <=? 57).

Definition is_alpha (c : ascii) : bool :=
  let n := nat_of_ascii c in
  ((65 <=? n) && (n <=? 90)) || ((97 <=? n) && (n <=? 122)).

(** [\w] on ASCII: letters, digits and the underscore. *)
Definition is_word (c : ascii) : bool :=
  is_alpha c || is_digit c || bool_decide (c = "_"%char).

Definition is_ascii (c : ascii) : bool := nat_of_ascii c <? 128.

(** The characters with a meaning of their own in a pattern. *)
Definition is_special (c : ascii) : bool :=
  bool_decide (c ∈ list_ascii_of_string ".^$*+?{}[]|()\").

Definition atom_matches (a : atom) (c : ascii) : bool :=
  match a with
  | Lit c' => bool_decide (c = c')
  | AnyChar => negb (bool_decide (c = "010"%char))
  | WordChar => is_word c
  | DigitChar => is_digit c
  | SpaceChar => is_space c
  end.

(** The atom written [\c]. *)
Definition escape_atom (c : ascii) : option atom :=
  if bool_decide (c = "w"%char) then Some WordChar
  else if bool_decide (c = "d"%char) then Some DigitChar
  else if bool_decide (c = "s"%char) then Some SpaceChar
  else if is_ascii c && negb (is_alpha c || is_digit c) then Some (Lit c)
  else None.

Fixpoint parse_items (pattern : list ascii) : option (list item) :=
  match pattern with
  | [] => Some []
  | c :: rest =>
      if bool_decide (c = "\"%char) then
        match rest with
        | e :: rest' =>
            a ← escape_atom e;
            match rest' with
            | q :: rest'' =>
                if bool_decide (q = "+"%char)
                then items ← parse_items rest''; Some (Item a true :: items)
                else items ← parse_items rest'; Some (Item a false :: items)
            | [] => Some [Item a false]
            end
        | [] => None
        end
      else
        a ← (if bool_decide (c = "."%char) then Some AnyChar
             else if is_special c then None else Some (Lit c));
        match rest with
        | q :: rest' =>
            if bool_decide (q = "+"%char)
            then items ← parse_items rest'; Some (Item a true :: items)
            else items ← parse_items rest; Some (Item a false :: items)
        | [] => Some [Item a false]
        end
  end.

(** [a+] then the rest of the pattern [k]: as many characters as possible
    first, then fewer. The result is the text after the match. *)
Fixpoint match_plus (a : atom) (k : list ascii → option (list ascii))
    (text : list ascii) : option (list ascii) :=
  match text with
  | c :: text' =>
      if atom_matches a c then
        match match_plus a k text' with
        | Some after => Some after
        | None => k text'
        end
      else None
  | [] => None
  end.

(** A match of the items at the start of [text]: the text after it. *)
Fixpoint match_items (items : list item) (text : list ascii)
    : option (list ascii) :=
  match items with
  | [] => Some text
  | Item a plus :: items' =>
      if plus then match_plus a (match_items items') text
      else match text with
           | c :: text' =>
               if atom_matches a c then match_items items' text' else None
           | [] => None
           end
  end.

(** The text with every match replaced, from left to right, matches not
    overlapping; [skip] characters belong to the match just replaced. *)
Fixpoint sub_items (items : list item) (repl : list ascii) (skip : nat)
    (text : list ascii) : list ascii :=
  match text with
  | [] => []
  | c :: text' =>
      match skip with
      | S skip' => sub_items items repl skip' text'
      | 0 =>
          match match_items items text with
          | Some after =>
              repl ++ sub_items items repl
                        (length text' - length after) text'
          | None => c :: sub_items items repl 0 text'
          end
      end
  end.

Definition re_sub_fragment (pattern repl text : string) : option string :=
  let pattern := list_ascii_of_string pattern in
  let repl := list_ascii_of_string repl in
  let text := list_ascii_of_string text in
  if forallb is_ascii (pattern ++ repl ++ text)
     && negb (bool_decide ("\"%char ∈ repl))
  then
    items ← parse_items pattern;
    if bool_decide (items = []) then None
    else Some (string_of_list_ascii (sub_items items repl 0 text))
  else None.

(** An engine that follows the fragment, and refuses what lies outside. *)
Definition re_sub_within_fragment (pattern repl text : string)
    : result string :=
  match re_sub_fragment pattern repl text with
  | Some out => Ok out
  | None => Raise (re_error "outside the modelled fragment")
  end.

(** ** Vocabulary of the further properties *)

(** [m] is the longest sequence that starts every input. *)
Definition longest_common_prefix {A} (args : list (list A)) (m : list A)
    : Prop :=
  (∀ x, x ∈ args → m `prefix_of` x) ∧
  (∀ p, (∀ x, x ∈ args → p `prefix_of` x) → p `prefix_of` m).

(** [vivified = vivification(); vivified[key1][key2] = x]: the heap and the
    root it leaves. *)
Definition chained_assignment (key1 key2 : string) (x : value)
    : result (heap * value) :=
  let '(h, root) := vivification [] in
  r ← vivified_getitem h root key1;
  h ← vivified_setitem r.1 r.2 key2 x;
  Ok (h, root).

(** [vivified[key1][key2]]. *)
Definition chained_lookup (h : heap) (root : value) (key1 key2 : string)
    : result (heap * value) :=
  r ← vivified_getitem h root key1;
  vivified_getitem r.1 r.2 key2.

(** The length of the chunks together. *)
Definition total_len (chunks : list string) : Z :=
  foldr (λ chunk n, len chunk + n)%Z 0%Z chunks.

(** The characters of a string that are not whitespace, in order. *)
Definition non_space (s : string) : list ascii :=
  filter (λ c, is_space c = false) (list_ascii_of_string s).

(** * Part II: properties *)

(** ** SequenceOps *)

Section sequence_ops_facts.
Context {A : Type} `{Countable A} `{PyLt A}.
Implicit Types (args : list (list A)) (a b : list A) (i j : nat).

Local Abbreviation array args :=
  (map (list_to_set (C:=gset A)) (zip_star args)) (only parsing).

Lemma zip_star_lookup args i :
  args ≠ [] → zip_star args !! i = mapM (λ a, a !! i) args.
Proof.
  induction args as [|a rest IH]; [done|intros _].
  destruct rest as [|b rest].
  - simpl. rewrite list_lookup_fmap. by destruct (a !! i).
  - change (zip_star (a :: b :: rest))
      with (zip_with cons a (zip_star (b :: rest))).
    rewrite lookup_zip_with, IH by done.
    change (mapM (λ a, a !! i) (a :: b :: rest))
      with (x ← a !! i; k ← mapM (λ a, a !! i) (b :: rest); mret (x :: k)).
    destruct (a !! i); simpl; [|done].
    by destruct (mapM _ (b :: rest)).
Qed.

Lemma column_elem_of args i (col : list A) x :
  mapM (λ a, a !! i) args = Some col →
  x ∈ col ↔ ∃ a, a ∈ args ∧ a !! i = Some x.
Proof.
  rewrite mapM_Some. induction 1 as [|a c args col Hc _ IH].
  - split; [by intros ?%elem_of_nil|by intros (?&?%elem_of_nil&?)].
  - rewrite elem_of_cons, IH. split.
    + intros [->|(b&?&?)]; [exists a|exists b]; by rewrite elem_of_cons; auto.
    + intros (b&[->|?]%elem_of_cons&?); [left; congruence|right; eauto].
Qed.

Lemma column_scanned args i :
  scanned args i → is_Some (mapM (λ a, a !! i) args).
Proof.
  intros Hs. induction args as [|a args IH]; [by eexists|].
  destruct IH as [col Hcol].
  { intros b ?. apply Hs. by right. }
  destruct (lookup_lt_is_Some_2 a i) as [x Hx].
  { apply Hs. by left. }
  exists (x :: col). rewrite mapM_Some in *. by constructor.
Qed.

Lemma column_is_scanned args i (col : list A) :
  mapM (λ a, a !! i) args = Some col → scanned args i.
Proof.
  rewrite mapM_Some. induction 1 as [|a c args col Hc _ IH]; intros b Hb.
  - by apply elem_of_nil in Hb.
  - apply elem_of_cons in Hb as [->|Hb]; [|by apply IH].
    by eapply lookup_lt_Some.
Qed.

(** A column diverges exactly when two of its entries differ. *)
Lemma size_list_to_set_le_1 (col : list A) :
  size (list_to_set col : gset A) ≤ 1 ↔ ∀ x y, x ∈ col → y ∈ col → x = y.
Proof.
  split.
  - intros Hsz x y Hx Hy. destruct (decide (x = y)) as [|Hne]; [done|].
    assert ({[x; y]} ⊆ (list_to_set col : gset A)) as Hsub.
    { intros z. rewrite elem_of_union, !elem_of_singleton, elem_of_list_to_set.
      by intros [->| ->]. }
    apply subseteq_size in Hsub.
    rewrite size_union, !size_singleton in Hsub; [lia|].
    by apply disjoint_singleton_l, not_elem_of_singleton.
  - intros Hall. destruct col as [|x col].
    { change (list_to_set [] : gset A) with (∅ : gset A).
      rewrite size_empty. lia. }
    assert ((list_to_set (x :: col) : gset A) ⊆ {[x]}) as Hsub.
    { intros y Hy%elem_of_list_to_set. apply elem_of_singleton.
      apply Hall; [done|by left]. }
    apply subseteq_size in Hsub. by rewrite size_singleton in Hsub.
Qed.

Lemma array_lookup args i (s : gset A) :
  args ≠ [] →
  array args !! i = Some s →
  scanned args i ∧ (1 < size s ↔ ¬ agree_at args i).
Proof.
  intros Hne. rewrite list_lookup_fmap, zip_star_lookup by done.
  destruct (mapM _ args) as [col|] eqn:Hcol; [|done].
  intros [= <-]. split; [by eapply column_is_scanned|].
  pose proof (size_list_to_set_le_1 col) as Hsz.
  assert ((∀ x y, x ∈ col → y ∈ col → x = y) ↔ agree_at args i) as Hag.
  { split.
    - intros Hall a b x y Ha Hb Hx Hy.
      apply Hall; eapply column_elem_of; eauto.
    - intros Hall x y (a&?&?)%(column_elem_of _ _ _ _ Hcol)
        (b&?&?)%(column_elem_of _ _ _ _ Hcol). eauto. }
  rewrite <-Hag, <-Hsz. lia.
Qed.

Lemma array_lookup_scanned args i :
  args ≠ [] → scanned args i →
  is_Some (array args !! i).
Proof.
  intros Hne [col Hcol]%column_scanned.
  rewrite list_lookup_fmap, zip_star_lookup, Hcol by done. by eexists.
Qed.

(** The first entry that passes a filter is the first occurrence of its
    value, so [index] finds its position. *)
Lemma filter_first_index (array : list (gset A)) d ds :
  filter (λ s : gset A, 1 < size s) array = d :: ds →
  ∃ j, array !! j = Some d ∧ 1 < size d ∧ list_index array d = Ok j ∧
       ∀ i s, i < j → array !! i = Some s → ¬ 1 < size s.
Proof.
  induction array as [|y array IH]; [done|].
  rewrite filter_cons. destruct (decide (1 < size y)) as [Hy|Hy].
  - intros [= -> <-]. exists 0. simpl. rewrite decide_True by done.
    repeat split; [done|]. intros; lia.
  - intros (j&Hj&Hd&Hidx&Hbefore)%IH. exists (S j). simpl.
    rewrite decide_False by (intros ->; done). rewrite Hidx.
    repeat split; [done..|].
    intros [|i] s ? Hs; simplify_eq/=; [done|].
    eapply Hbefore; [|done]. lia.
Qed.

(** With a diverging column, the result is the first input cut at the first
    index of disagreement. *)
Lemma common_ancestor_cut a rest :
  (∃ i, scanned (a :: rest) i ∧ ¬ agree_at (a :: rest) i) →
  ∃ j, first_disagreement (a :: rest) j ∧
       common_ancestor (a :: rest) = Ok (take j a).
Proof.
  intros (i&Hsc&Hdis). set (args := a :: rest) in *.
  assert (args ≠ []) as Hne by done.
  destruct (array_lookup_scanned args i Hne Hsc) as [s Hs].
  pose proof (array_lookup args i s Hne Hs) as [_ Hsz].
  destruct (filter (λ s : gset A, 1 < size s) (array args))
    as [|d ds] eqn:Hfilter.
  { assert (s ∈ filter (λ s : gset A, 1 < size s) (array args)) as Hin.
    { apply list_elem_of_filter. split; [by apply Hsz|].
      by eapply list_elem_of_lookup_2. }
    rewrite Hfilter in Hin. by apply elem_of_nil in Hin. }
  destruct (filter_first_index _ _ _ Hfilter) as (j&Hj&Hd&Hidx&Hbefore).
  pose proof (array_lookup args j d Hne Hj) as [Hscj Hszj].
  exists j. split.
  - split; [done|]. split; [by apply Hszj|].
    intros k Hk. assert (scanned args k) as Hsck.
    { intros b Hb. specialize (Hscj b Hb). lia. }
    destruct (array_lookup_scanned args k Hne Hsck) as [sk Hsk].
    pose proof (array_lookup args k sk Hne Hsk) as [_ Hszk].
    specialize (Hbefore k sk Hk Hsk).
    intros b c x y Hb Hc Hx Hy. destruct (decide (x = y)) as [|Hxy]; [done|].
    destruct Hbefore. apply Hszk. intros Hag. by apply Hxy, (Hag b c).
  - unfold common_ancestor. fold args.
    set (arr := array args) in *. rewrite Hfilter. simpl.
    by rewrite Hidx.
Qed.

(** Without a diverging column the result is [min(args)]. *)
Lemma common_ancestor_min args :
  (∀ i, scanned args i → agree_at args i) →
  common_ancestor args = py_min args.
Proof.
  intros Hag. unfold common_ancestor.
  destruct (filter (λ s : gset A, 1 < size s) (array args))
    as [|d ds] eqn:Hfilter; [done|].
  destruct args as [|a rest].
  { done. }
  destruct (filter_first_index _ _ _ Hfilter) as (j&Hj&Hd&_).
  pose proof (array_lookup (a :: rest) j d ltac:(done) Hj) as [Hscj Hszj].
  apply Hszj in Hd. destruct Hd. by apply Hag.
Qed.

(** *** [min] over inputs that agree wherever they are scanned *)

Lemma seq_lt_prefix_r s x : s `prefix_of` x → seq_lt x s = false.
Proof.
  intros [k ->]. induction s as [|c s IH]; simpl.
  - by destruct k.
  - by rewrite decide_True.
Qed.

Lemma seq_lt_prefix_eq s x : s `prefix_of` x → seq_lt s x = false → s = x.
Proof.
  intros [k ->]. induction s as [|c s IH]; simpl.
  - by destruct k.
  - rewrite decide_True by done. intros ?. f_equal. auto.
Qed.

Lemma shortest_exists args :
  args ≠ [] → ∃ s, s ∈ args ∧ ∀ x, x ∈ args → length s ≤ length x.
Proof.
  induction args as [|a [|b rest] IH]; [done| |]; intros _.
  - exists a. split; [by left|]. by intros x ->%list_elem_of_singleton.
  - destruct IH as (s&Hs&Hmin); [done|].
    destruct (decide (length a ≤ length s)) as [Hle|Hgt].
    + exists a. split; [by left|]. intros x [->|Hx]%elem_of_cons; [done|].
      specialize (Hmin x Hx). lia.
    + exists s. split; [by right|]. intros x [->|Hx]%elem_of_cons; [lia|].
      by apply Hmin.
Qed.

Lemma agreeing_prefix args s x :
  (∀ i, scanned args i → agree_at args i) →
  s ∈ args → (∀ y, y ∈ args → length s ≤ length y) →
  x ∈ args → s `prefix_of` x.
Proof.
  intros Hag Hs Hmin Hx. exists (drop (length s) x).
  rewrite <-(take_drop (length s) x) at 1. f_equal.
  apply list_eq. intros i. destruct (decide (i < length s)) as [Hi|Hi].
  - rewrite lookup_take_lt by done.
    destruct (lookup_lt_is_Some_2 s i Hi) as [c Hc].
    destruct (lookup_lt_is_Some_2 x i) as [c' Hc'].
    { specialize (Hmin x Hx). lia. }
    assert (scanned args i) as Hsc.
    { intros y Hy. specialize (Hmin y Hy). lia. }
    rewrite Hc, Hc'. f_equal. exact (Hag i Hsc x s c' c Hx Hs Hc' Hc).
  - rewrite lookup_take_ge by lia. symmetry. apply lookup_ge_None. lia.
Qed.

Lemma fold_min_prefix s rest cur :
  (∀ x, x ∈ cur :: rest → s `prefix_of` x) → s ∈ cur :: rest →
  fold_left (λ cur item, if seq_lt item cur then item else cur) rest cur = s.
Proof.
  revert cur. induction rest as [|item rest IH]; intros cur Hpre Hin; simpl.
  - by apply list_elem_of_singleton in Hin.
  - apply IH.
    + intros x [->|Hx]%elem_of_cons.
      * destruct (seq_lt item cur); apply Hpre; [by right; left|by left].
      * apply Hpre. by do 2 right.
    + apply elem_of_cons in Hin as [->|[->|Hin]%elem_of_cons].
      * rewrite seq_lt_prefix_r; [by left|]. apply Hpre. by right; left.
      * destruct (seq_lt item cur) eqn:Hlt; [by left|].
        apply elem_of_cons. left.
        apply seq_lt_prefix_eq; [|done]. apply Hpre. by left.
      * by right.
Qed.

(** Without a diverging column the result is the input that is a prefix of
    all inputs, which is their minimum. *)
Lemma common_ancestor_agreeing a rest :
  (∀ i, scanned (a :: rest) i → agree_at (a :: rest) i) →
  ∃ m, common_ancestor (a :: rest) = Ok m ∧ lex_minimum (a :: rest) m ∧
       ∀ x, x ∈ a :: rest → m `prefix_of` x.
Proof.
  intros Hag. rewrite common_ancestor_min by done.
  destruct (shortest_exists (a :: rest)) as (s&Hs&Hmin); [done|].
  assert (∀ x, x ∈ a :: rest → s `prefix_of` x) as Hpre.
  { intros x Hx. by eapply agreeing_prefix. }
  exists s. simpl. rewrite (fold_min_prefix s) by done.
  repeat split; [done| |done]. intros x Hx. by apply seq_lt_prefix_r, Hpre.
Qed.

Lemma agree_at_stable args i : ¬ ¬ agree_at args i → agree_at args i.
Proof.
  intros Hnn a b x y Ha Hb Hx Hy. destruct (decide (x = y)) as [|Hne]; [done|].
  destruct Hnn. intros Hag. apply Hne. by apply (Hag a b).
Qed.

(** In both branches the result is the longest common prefix of the
    inputs. *)
Lemma common_ancestor_longest_prefix a rest :
  ∃ m, common_ancestor (a :: rest) = Ok m ∧
       (∀ x, x ∈ a :: rest → m `prefix_of` x) ∧
       (∀ p, (∀ x, x ∈ a :: rest → p `prefix_of` x) → p `prefix_of` m).
Proof.
  set (args := a :: rest). assert (args ≠ []) as Hne by done.
  destruct (filter (λ s : gset A, 1 < size s) (array args))
    as [|d ds] eqn:Hfilter.
  - assert (∀ i, scanned args i → agree_at args i) as Hag.
    { intros i Hsc. apply agree_at_stable. intros Hdis.
      destruct (array_lookup_scanned args i Hne Hsc) as [s Hs].
      pose proof (array_lookup args i s Hne Hs) as [_ Hsz].
      assert (s ∈ filter (λ s : gset A, 1 < size s) (array args)) as Hin.
      { apply list_elem_of_filter. split; [by apply Hsz|].
        by eapply list_elem_of_lookup_2. }
      rewrite Hfilter in Hin. by apply elem_of_nil in Hin. }
    destruct (common_ancestor_agreeing a rest Hag) as (m&Hm&[Hin _]&Hpre).
    exists m. split; [done|]. split; [done|]. intros p Hp. by apply Hp.
  - destruct (filter_first_index _ _ _ Hfilter) as (j0&Hj0&Hd&_).
    pose proof (array_lookup args j0 d Hne Hj0) as [Hsc0 Hsz0].
    destruct (common_ancestor_cut a rest) as (j&(Hsc&Hdis&Hbefore)&Hres).
    { exists j0. split; [done|]. by apply Hsz0. }
    exists (take j a). split; [done|]. split.
    + intros x Hx. exists (drop j x).
      rewrite <-(take_drop j x) at 1. f_equal. apply list_eq. intros i.
      destruct (decide (i < j)) as [Hi|Hi].
      * rewrite !lookup_take_lt by done.
        destruct (lookup_lt_is_Some_2 x i) as [c Hc].
        { specialize (Hsc x Hx). lia. }
        destruct (lookup_lt_is_Some_2 a i) as [c' Hc'].
        { specialize (Hsc a ltac:(by left)). lia. }
        rewrite Hc, Hc'. f_equal.
        exact (Hbefore i Hi x a c c' Hx ltac:(by left) Hc Hc').
      * by rewrite !lookup_take_ge by lia.
    + intros p Hp. assert (length p ≤ j) as Hlen.
      { destruct (decide (length p ≤ j)) as [|Hgt]; [done|]. destruct Hdis.
        destruct (lookup_lt_is_Some_2 p j) as [z Hz]; [lia|].
        intros b c x y Hb Hc Hx Hy.
        pose proof (prefix_lookup_Some _ _ _ _ Hz (Hp b Hb)).
        pose proof (prefix_lookup_Some _ _ _ _ Hz (Hp c Hc)). congruence. }
      destruct (Hp a ltac:(by left)) as [k ->].
      rewrite take_app_ge by done. by eexists.
Qed.
End sequence_ops_facts.

(** C1. When some scanned position holds more than one distinct value across
    the inputs, [common_ancestor] returns the first input truncated at the
    first index at which not all inputs agree; the two documented calls give
    [("1", "2")] and ["aze"]. *)
Theorem common_ancestor_truncates_at_first_divergence :
  (∀ (A : Type) `{Countable A} `{PyLt A} (a : list A) (rest : list (list A)),
     (∃ i, scanned (a :: rest) i ∧ ¬ agree_at (a :: rest) i) →
     ∃ j, first_disagreement (a :: rest) j ∧
          common_ancestor (a :: rest) = Ok (take j a)) ∧
  common_ancestor [["1"; "2"; "3"]; ["1"; "2"; "0"]; ["1"; "2"; "3"; "4"]]
    = Ok ["1"; "2"] ∧
  common_ancestor (map list_ascii_of_string ["azerty"; "azetty"; "azello"])
    = Ok (list_ascii_of_string "aze").
Proof.
  split; [|split; by vm_compute].
  intros A ? ? ? a rest. apply common_ancestor_cut.
Qed.

Lemma common_ancestor_truncates_witness :
  ∃ j, first_disagreement [["a"; "b"]; ["a"; "c"]] j ∧
       common_ancestor [["a"; "b"]; ["a"; "c"]] = Ok (take j ["a"; "b"]).
Proof.
  apply (proj1 common_ancestor_truncates_at_first_divergence).
  exists 1. split.
  - intros x Hx. repeat (apply elem_of_cons in Hx as [->|Hx]); simpl; try lia.
    by apply elem_of_nil in Hx.
  - intros Hag.
    by specialize (Hag ["a"; "b"] ["a"; "c"] "b" "c"
      ltac:(by left) ltac:(by right; left) eq_refl eq_refl).
Defined.

(** C2. When every scanned position holds a single value across the inputs,
    [common_ancestor] returns the lexicographic minimum of the inputs; hence
    [common_ancestor(a, a) == a] and [common_ancestor(a) == a]. *)
Theorem common_ancestor_falls_back_to_min :
  (∀ (A : Type) `{Countable A} `{PyLt A} (a : list A) (rest : list (list A)),
     (∀ i, scanned (a :: rest) i → agree_at (a :: rest) i) →
     ∃ m, common_ancestor (a :: rest) = Ok m ∧ py_min (a :: rest) = Ok m ∧
          lex_minimum (a :: rest) m) ∧
  (∀ (A : Type) `{Countable A} `{PyLt A} (a : list A),
     common_ancestor [a; a] = Ok a) ∧
  (∀ (A : Type) `{Countable A} `{PyLt A} (a : list A),
     common_ancestor [a] = Ok a).
Proof.
  assert (∀ (A : Type) `{Countable A} `{PyLt A} (a : list A) rest,
    (∀ x, x ∈ rest → x = a) → common_ancestor (a :: rest) = Ok a) as Hsame.
  { intros A ? ? ? a rest Hall.
    destruct (common_ancestor_agreeing a rest) as (m&->&[Hm _]&_).
    - intros i _ b c x y Hb Hc Hx Hy.
      assert (b = a) as -> by (apply elem_of_cons in Hb as [|]; auto).
      assert (c = a) as -> by (apply elem_of_cons in Hc as [|]; auto).
      congruence.
    - f_equal. apply elem_of_cons in Hm as [|]; auto. }
  split; [|split].
  - intros A ? ? ? a rest Hag.
    destruct (common_ancestor_agreeing a rest Hag) as (m&Hm&Hmin&_).
    exists m. split; [done|]. split; [|done].
    by rewrite <-common_ancestor_min.
  - intros A ? ? ? a. apply Hsame. by intros x ->%list_elem_of_singleton.
  - intros A ? ? ? a. apply Hsame. by intros x ?%elem_of_nil.
Qed.

Lemma common_ancestor_falls_back_witness :
  ∃ m, common_ancestor [["a"; "b"]; ["a"]] = Ok m ∧
       py_min [["a"; "b"]; ["a"]] = Ok m ∧
       lex_minimum [["a"; "b"]; ["a"]] m.
Proof.
  apply (proj1 common_ancestor_falls_back_to_min).
  intros i Hi. specialize (Hi ["a"] ltac:(by right; left)). simpl in Hi.
  assert (i = 0) as -> by lia.
  intros b c x y Hb Hc Hx Hy.
  repeat (apply elem_of_cons in Hb as [->|Hb]);
    repeat (apply elem_of_cons in Hc as [->|Hc]);
    try (by apply elem_of_nil in Hb); try (by apply elem_of_nil in Hc);
    simpl in *; congruence.
Defined.

(** ** [first_item] *)

(** C10. [first_item] returns the default for a falsy iterable (an empty
    list or string, [None]); for a truthy iterable it returns the first item
    yielded, and [None], not the default, when nothing is yielded (an
    exhausted generator). *)
Theorem first_item_cases :
  ∀ (A : Type) (iterable : pyobject A) (default : option A),
    (truth iterable = false → first_item iterable default = Ok default) ∧
    (truth iterable = true → iteration iterable = Ok [] →
       first_item iterable default = Ok None) ∧
    (∀ item items, truth iterable = true →
       iteration iterable = Ok (item :: items) →
       first_item iterable default = Ok (Some item)) ∧
    first_item (py_seq []) default = Ok default ∧
    first_item py_none default = Ok default ∧
    first_item (py_generator []) default = Ok None.
Proof.
  intros A iterable default. unfold first_item.
  repeat split; try done.
  - by intros ->.
  - by intros -> ->.
  - by intros item items -> ->.
Qed.

Lemma first_item_cases_witness :
  first_item (py_seq ([] : list nat)) (Some 7) = Ok (Some 7) ∧
  first_item (py_generator ([] : list nat)) (Some 7) = Ok None ∧
  first_item (py_generator [3; 4]) (Some 7) = Ok (Some 3).
Proof.
  split; [|split].
  - by apply (proj1 (first_item_cases nat (py_seq []) (Some 7))).
  - by apply (proj1 (proj2 (first_item_cases nat (py_generator []) (Some 7)))).
  - by apply (proj1 (proj2 (proj2
      (first_item_cases nat (py_generator [3; 4]) (Some 7)))) 3 [4]).
Defined.

(** ** [paths_common_ancestor] *)

Section paths.
Context (os_sep : ascii).
Implicit Types (s word : string) (parts : list string).

Local Abbreviation sep := (String os_sep EmptyString) (only parsing).

Lemma str_split_no_sep word :
  occurs os_sep word = false → str_split os_sep word = [word].
Proof.
  induction word as [|c word IH]; simpl; [done|].
  intros [Hc Hw]%orb_false_elim. apply bool_decide_eq_false in Hc.
  by rewrite decide_False, IH.
Qed.

Lemma str_split_app_sep word s :
  occurs os_sep word = false →
  str_split os_sep (word +:+ sep +:+ s) = word :: str_split os_sep s.
Proof.
  induction word as [|c word IH]; simpl.
  - intros _. by rewrite decide_True.
  - intros [Hc Hw]%orb_false_elim. apply bool_decide_eq_false in Hc.
    by rewrite decide_False, IH.
Qed.

(** Splitting undoes joining, for segments free of the separator. *)
Lemma str_split_join parts :
  parts ≠ [] → Forall (λ word, occurs os_sep word = false) parts →
  str_split os_sep (str_join sep parts) = parts.
Proof.
  induction parts as [|word [|word' parts] IH]; [done| |]; intros _ Hfree.
  - apply str_split_no_sep. by inversion Hfree.
  - change (str_join sep (word :: word' :: parts))
      with (word +:+ sep +:+ str_join sep (word' :: parts)).
    inversion Hfree; subst. rewrite str_split_app_sep by done.
    f_equal. by apply IH.
Qed.

(** Two paths that share the leading segments [dir] and part ways right
    after them have [dir], joined again, as their common ancestor. *)
Lemma paths_common_ancestor_pair (dir rest1 rest2 : list string) :
  dir ≠ [] →
  Forall (λ word, occurs os_sep word = false) (dir ++ rest1 ++ rest2) →
  (∀ x y, head rest1 = Some x → head rest2 = Some y → x ≠ y) →
  paths_common_ancestor os_sep
    [str_join sep (dir ++ rest1); str_join sep (dir ++ rest2)]
  = Ok (str_join sep dir).
Proof.
  intros Hdir Hfree Hpart. unfold paths_common_ancestor. simpl map.
  apply Forall_app in Hfree as [Hd [H1 H2]%Forall_app].
  rewrite !str_split_join
    by (try apply Forall_app; try done; by destruct dir).
  destruct (common_ancestor_longest_prefix (dir ++ rest1) [dir ++ rest2])
    as (m&->&Hpre&Hlong). simpl. do 2 f_equal.
  destruct (Hlong dir) as [k ->].
  { intros x [-> | ->%list_elem_of_singleton]%elem_of_cons;
      by apply prefix_app_r. }
  destruct k as [|z k]; [by rewrite app_nil_r|]. exfalso.
  pose proof (Hpre (dir ++ rest1) ltac:(by left)) as [k1 E1].
  pose proof (Hpre (dir ++ rest2) ltac:(by right; left)) as [k2 E2].
  rewrite <-app_assoc in E1, E2. apply app_inv_head in E1, E2. subst.
  by apply (Hpart z z).
Qed.
End paths.

Example paths_common_ancestor_docstring :
  paths_common_ancestor "/"
    ["/Users/JohnDoe/Documents"; "/Users/JohnDoe/Documents/Test.txt"]
  = Ok "/Users/JohnDoe/Documents".
Proof. by vm_compute. Qed.

(** Two paths that share the root only: the common segments are the one
    empty segment before the first separator, which joins to the empty
    string. *)
Example paths_common_ancestor_root :
  paths_common_ancestor "/" ["/a"; "/b"] = Ok "".
Proof. by vm_compute. Qed.

(** C7. For a non-empty list of paths, [paths_common_ancestor] splits each
    path on the separator, takes the common ancestor of the segment lists
    (their longest common prefix) and joins it again, with no [.] or [..]
    normalisation; two paths sharing a leading directory give that
    directory. *)
Theorem paths_common_ancestor_split_join :
  (∀ os_sep path paths, ∃ segments,
     common_ancestor (map (str_split os_sep) (path :: paths)) = Ok segments ∧
     paths_common_ancestor os_sep (path :: paths)
       = Ok (str_join (String os_sep EmptyString) segments)) ∧
  (∀ os_sep (dir rest1 rest2 : list string),
     dir ≠ [] →
     Forall (λ word, occurs os_sep word = false) (dir ++ rest1 ++ rest2) →
     (∀ x y, head rest1 = Some x → head rest2 = Some y → x ≠ y) →
     paths_common_ancestor os_sep
       [str_join (String os_sep EmptyString) (dir ++ rest1);
        str_join (String os_sep EmptyString) (dir ++ rest2)]
     = Ok (str_join (String os_sep EmptyString) dir)) ∧
  paths_common_ancestor "/" ["/a/../b/x"; "/a/../b/y"] = Ok "/a/../b" ∧
  paths_common_ancestor "/" ["./a/b"; "./a/c"] = Ok "./a".
Proof.
  split; [|split; [|split; by vm_compute]].
  - intros os_sep path paths. unfold paths_common_ancestor. simpl map.
    destruct (common_ancestor_longest_prefix (str_split os_sep path)
      (map (str_split os_sep) paths)) as (m&->&_). by exists m.
  - apply paths_common_ancestor_pair.
Qed.

Lemma paths_common_ancestor_witness :
  paths_common_ancestor "/"
    [str_join "/" ([""; "usr"] ++ ["lib"; "x"]);
     str_join "/" ([""; "usr"] ++ ["bin"])]
  = Ok (str_join "/" [""; "usr"]).
Proof.
  apply (proj1 (proj2 paths_common_ancestor_split_join)
           "/"%char [""; "usr"] ["lib"; "x"] ["bin"]).
  - done.
  - by repeat constructor.
  - by intros x y [= <-] [= <-].
Defined.


(** ** CapabilityGate *)

Section capability_gate_facts.
Context (import_error : string → option string).
Context {Args R : Type}.
Implicit Types (requirement : string) (requirements : list string).
Implicit Types (function : Args → result R) (args : Args).

Local Abbreviation registry := (REQUIREMENTS_TO_CALLABLE import_error)
  (only parsing).
Local Abbreviation check := (check_requirement (Args:=Args) import_error)
  (only parsing).
Local Abbreviation probed requirements :=
  (map (λ requirement, Probe (Args:=Args) requirement true) requirements)
  (only parsing).

Lemma check_requirement_succeeds requirement :
  probe_succeeds import_error requirement →
  check requirement = Eff [Probe requirement true] (Ok ()).
Proof.
  intros (probe&v&Hprobe&Hv). unfold check_requirement, getitem.
  rewrite Hprobe. unfold mbind, eff_bind. simpl. by rewrite Hv.
Qed.

Lemma check_requirement_fails requirement msg :
  probe_fails import_error requirement msg →
  check requirement = Eff [Probe requirement true] (Raise (ImportError msg)).
Proof.
  intros (probe&Hprobe&Hv). unfold check_requirement, getitem.
  rewrite Hprobe. unfold mbind, eff_bind. simpl. by rewrite Hv.
Qed.

Lemma check_requirement_unknown requirement :
  registry !! requirement = None →
  check requirement = Eff [] (Raise (KeyError requirement)).
Proof.
  intros Hprobe. unfold check_requirement, getitem. by rewrite Hprobe.
Qed.

(** A registered probe, asked to raise on failure, returns or raises
    [ImportError]. *)
Lemma registered_probe requirement :
  registered import_error requirement →
  probe_succeeds import_error requirement ∨
  ∃ msg, probe_fails import_error requirement msg.
Proof.
  intros [probe Hprobe]. unfold probe_succeeds, probe_fails. rewrite Hprobe.
  unfold REQUIREMENTS_TO_CALLABLE in Hprobe.
  apply elem_of_list_to_map_2 in Hprobe.
  repeat (apply elem_of_cons in Hprobe as [[= -> ->]|Hprobe]);
    [..|by apply elem_of_nil in Hprobe].
  all: unfold is_colour_installed, is_jsonpickle_installed,
    is_networkx_installed; destruct (import_error _); eauto 6.
Qed.

(** The loop passes over the requirements whose probes succeed. *)
Lemma for_each_check_passed passed remaining :
  Forall (probe_succeeds import_error) passed →
  for_each check (passed ++ remaining)
  = Eff (probed passed ++ trace (for_each check remaining))
        (outcome (for_each check remaining)).
Proof.
  induction 1 as [|requirement passed Hok _ IH]; simpl.
  - by destruct (for_each _ remaining).
  - rewrite IH, check_requirement_succeeds by done.
    unfold mbind, eff_bind. simpl. by destruct (outcome _).
Qed.

(** The loop only calls probes; it ends well only if every probe succeeds. *)
Lemma for_each_check_outcome requirements :
  (∀ a, Invoke a ∉ trace (for_each check requirements)) ∧
  ((outcome (for_each check requirements) = Ok () ∧
    Forall (probe_succeeds import_error) requirements) ∨
   ∃ e, outcome (for_each check requirements) = Raise e).
Proof.
  induction requirements as [|requirement requirements [IHt IHo]]; simpl.
  { split; [by intros a ?%elem_of_nil|]. left. by split. }
  destruct (registry !! requirement) as [probe|] eqn:Hprobe.
  - destruct (probe true) as [v|e] eqn:Hv.
    + rewrite check_requirement_succeeds by (by exists probe, v).
      unfold mbind, eff_bind. simpl. split.
      * intros a Ha. apply elem_of_cons in Ha as [?|Ha]; [done|].
        by apply (IHt a).
      * destruct IHo as [[-> Hall]|[e ->]]; [left|right; by eexists].
        split; [done|]. constructor; [by exists probe, v|done].
    + unfold check_requirement, getitem. rewrite Hprobe.
      unfold mbind, eff_bind. simpl. rewrite Hv. simpl. split.
      * intros a Ha. apply elem_of_cons in Ha as [?|Ha]; [done|].
        by apply elem_of_nil in Ha.
      * right. by eexists.
  - rewrite check_requirement_unknown by done. split.
    + by intros a ?%elem_of_nil.
    + right. by eexists.
Qed.

(** C4. With every requirement registered, the wrapped function calls the
    probes in the given order, each with [raise_exception=True], and stops
    at the first that fails: it then raises that probe's [ImportError]
    without calling the decorated function; when all probes succeed it calls
    the decorated function with the arguments it received and returns its
    result. *)
Theorem required_checks_then_invokes requirements function args :
  Forall (registered import_error) requirements →
  (Forall (probe_succeeds import_error) requirements →
   required import_error requirements function args
   = Eff (probed requirements ++ [Invoke args]) (function args)) ∧
  (∀ passed failing remaining msg,
     requirements = passed ++ failing :: remaining →
     Forall (probe_succeeds import_error) passed →
     probe_fails import_error failing msg →
     required import_error requirements function args
     = Eff (probed (passed ++ [failing])) (Raise (ImportError msg))) ∧
  (Forall (probe_succeeds import_error) requirements ∨
   ∃ passed failing remaining msg,
     requirements = passed ++ failing :: remaining ∧
     Forall (probe_succeeds import_error) passed ∧
     probe_fails import_error failing msg).
Proof.
  intros Hreg. split; [|split].
  - intros Hall. unfold required.
    rewrite <-(app_nil_r requirements) at 1.
    rewrite for_each_check_passed by done.
    unfold mbind, eff_bind. simpl. rewrite app_nil_r.
    by destruct (function args).
  - intros passed failing remaining msg -> Hpassed Hfails. unfold required.
    rewrite for_each_check_passed by done. simpl.
    rewrite check_requirement_fails with (msg := msg) by done.
    unfold mbind, eff_bind. simpl. by rewrite map_app.
  - clear function args.
    induction Hreg as [|requirement requirements Hr _ IH]; [by left|].
    destruct (registered_probe requirement Hr) as [Hok|[msg Hfail]].
    + destruct IH as [Hall|(passed&failing&remaining&msg&->&Hpassed&Hfail)].
      * left. by constructor.
      * right. exists (requirement :: passed), failing, remaining, msg.
        split; [done|]. split; [by constructor|done].
    + right. by exists [], requirement, requirements, msg.
Qed.

(** C8. A requirement that is not in the registry makes the wrapped function
    raise before the decorated function is called: [KeyError] for the first
    such name once the probes before it have succeeded; the name is never
    skipped. *)
Theorem required_unknown_requirement_raises requirements function args :
  (∃ requirement, requirement ∈ requirements ∧
                  registry !! requirement = None) →
  (∃ e, outcome (required import_error requirements function args)
        = Raise e) ∧
  (∀ a, Invoke a ∉ trace (required import_error requirements function args)) ∧
  (∀ passed unknown remaining,
     requirements = passed ++ unknown :: remaining →
     Forall (probe_succeeds import_error) passed →
     registry !! unknown = None →
     required import_error requirements function args
     = Eff (probed passed) (Raise (KeyError unknown))).
Proof.
  intros (unknown&Hin&Hunknown).
  destruct (for_each_check_outcome requirements) as [Ht [[_ Hall]|[e He]]].
  { rewrite Forall_forall in Hall.
    destruct (Hall unknown Hin) as (?&?&?&_). congruence. }
  split; [|split].
  - exists e. unfold required, mbind, eff_bind. by rewrite He.
  - unfold required, mbind, eff_bind. by rewrite He.
  - intros passed unknown' remaining -> Hpassed Hnone. unfold required.
    rewrite for_each_check_passed by done. simpl.
    rewrite check_requirement_unknown by done.
    unfold mbind, eff_bind. simpl. by rewrite app_nil_r.
Qed.
End capability_gate_facts.

Lemma required_checks_then_invokes_witness :
  required only_colour_installed ["Colour"; "NetworkX"]
    (λ x : nat, Ok (x + 1)) 3
  = Eff [Probe "Colour" true; Probe "NetworkX" true]
        (Raise (ImportError
           (dquote +:+ "NetworkX" +:+ dquote
            +:+ " related API features are not available: "
            +:+ dquote +:+ "No module named 'networkx'" +:+ dquote +:+ "."))).
Proof.
  refine (proj1 (proj2 (required_checks_then_invokes only_colour_installed
    ["Colour"; "NetworkX"] (λ x : nat, Ok (x + 1)) 3 _))
    ["Colour"] "NetworkX" [] _ eq_refl _ _).
  - repeat constructor; by eexists.
  - repeat constructor. by eexists _, _.
  - by eexists.
Defined.

Lemma required_unknown_requirement_witness :
  required only_colour_installed ["Colour"; "OpenImageIO"]
    (λ x : nat, Ok (x + 1)) 3
  = Eff [Probe "Colour" true] (Raise (KeyError "OpenImageIO")).
Proof.
  refine (proj2 (proj2 (required_unknown_requirement_raises
    only_colour_installed ["Colour"; "OpenImageIO"] (λ x : nat, Ok (x + 1)) 3
    _)) ["Colour"] "OpenImageIO" [] eq_refl _ eq_refl).
  - exists "OpenImageIO". split; [by right; left|done].
  - repeat constructor. by eexists _, _.
Defined.

(** ** TextBox *)

Lemma str_repeat_pos s (n : Z) :
  (0 < n)%Z → str_repeat s n = s +:+ str_repeat s (n - 1).
Proof.
  intros Hn. unfold str_repeat.
  replace (Z.to_nat n) with (S (Z.to_nat (n - 1))) by lia. done.
Qed.

Lemma for_each_emit {X} (f : X → string) (items : list X) :
  for_each (λ x, emit (f x)) items = Eff (map f items) (Ok ()).
Proof.
  induction items as [|x items IH]; simpl; [done|].
  rewrite IH. done.
Qed.

Lemma string_concat_empty (pieces : list string) :
  String.concat "" pieces = "" → filter (λ c, c ≠ EmptyString) pieces = [].
Proof.
  induction pieces as [|piece [|piece' pieces] IH]; [done| |].
  - simpl. intros ->. by rewrite filter_cons, decide_False by auto.
  - change (String.concat "" (piece :: piece' :: pieces))
      with (piece +:+ "" +:+ String.concat "" (piece' :: pieces)).
    destruct piece; [|done]. simpl. intros Hrest.
    rewrite filter_cons, decide_False by auto. by apply IH.
Qed.

Section text_box_facts.
Context (wordsep_split : string → list string).
Implicit Types (width padding : Z) (lines chunks cur_line : list string).

Lemma fill_line_length width cur_line cur_len chunks :
  length (fill_line width cur_line cur_len chunks).2 ≤ length chunks.
Proof.
  revert cur_line cur_len. induction chunks as [|chunk chunks IH];
    intros cur_line cur_len; simpl; [done|].
  destruct (_ <=? _)%Z; simpl; [|done].
  specialize (IH (cur_line ++ [chunk]) (cur_len + len chunk)%Z). lia.
Qed.

Lemma fill_line_first width chunk chunks :
  (len chunk <= width)%Z →
  length (fill_line width [] 0 (chunk :: chunks)).2 ≤ length chunks.
Proof.
  intros Hfit. simpl. rewrite (proj2 (Z.leb_le _ _)) by lia.
  apply fill_line_length.
Qed.

Lemma fill_line_stuck width chunk chunks :
  (width < len chunk)%Z →
  fill_line width [] 0 (chunk :: chunks) = ([], 0%Z, chunk :: chunks).
Proof. intros Hbig. simpl. by rewrite (proj2 (Z.leb_gt _ _)) by lia. Qed.

Lemma long_word_step_length width chunks cur_line :
  length (long_word_step width chunks cur_line).1 ≤ length chunks.
Proof.
  unfold long_word_step, handle_long_word.
  destruct chunks as [|chunk chunks]; [done|].
  destruct (_ <? _)%Z; [|done]. destruct cur_line; simpl; lia.
Qed.

(** Every turn of the outer loop takes at least one chunk away. *)
Lemma wrap_line_shrinks width lines chunk chunks :
  length (wrap_line width lines (chunk :: chunks)).1 ≤ length chunks.
Proof.
  unfold wrap_line, drop_leading_space.
  destruct (all_space chunk && bool_decide (lines ≠ [])).
  - pose proof (fill_line_length width [] 0 chunks) as Hfill.
    destruct (fill_line width [] 0 chunks) as [[cur_line cur_len] rem].
    pose proof (long_word_step_length width rem cur_line) as Hlong.
    destruct (long_word_step width rem cur_line). simpl in *. lia.
  - destruct (decide (len chunk <= width)%Z) as [Hfit|Hbig].
    + pose proof (fill_line_first width chunk chunks Hfit) as Hfill.
      destruct (fill_line width [] 0 (chunk :: chunks))
        as [[cur_line cur_len] rem].
      pose proof (long_word_step_length width rem cur_line) as Hlong.
      destruct (long_word_step width rem cur_line). simpl in *. lia.
    + rewrite fill_line_stuck by lia. unfold long_word_step.
      by rewrite (proj2 (Z.ltb_lt _ _)) by lia.
Qed.

(** The loop runs until no chunk is left: fuel beyond the number of chunks
    is never used. *)
Lemma wrap_loop_fuel n fuel1 fuel2 width lines chunks :
  length chunks ≤ n → n ≤ fuel1 → n ≤ fuel2 →
  wrap_loop fuel1 width lines chunks = wrap_loop fuel2 width lines chunks.
Proof.
  revert fuel1 fuel2 lines chunks.
  induction n as [|n IH]; intros fuel1 fuel2 lines chunks Hlen H1 H2.
  - destruct chunks; [|simpl in Hlen; lia]. by destruct fuel1, fuel2.
  - destruct chunks as [|chunk chunks]; [by destruct fuel1, fuel2|].
    destruct fuel1 as [|fuel1]; [lia|]. destruct fuel2 as [|fuel2]; [lia|].
    simpl. pose proof (wrap_line_shrinks width lines chunk chunks) as Hshrink.
    destruct (wrap_line width lines (chunk :: chunks)) as [chunks' lines'].
    simpl in *. apply IH; lia.
Qed.

(** The equation of [while chunks: ...]. *)
Lemma wrap_loop_turn width lines chunk chunks :
  wrap_loop (length (chunk :: chunks)) width lines (chunk :: chunks)
  = wrap_loop (length (wrap_line width lines (chunk :: chunks)).1) width
      (wrap_line width lines (chunk :: chunks)).2
      (wrap_line width lines (chunk :: chunks)).1.
Proof.
  simpl. pose proof (wrap_line_shrinks width lines chunk chunks) as Hshrink.
  destruct (wrap_line width lines (chunk :: chunks)) as [chunks' lines'].
  simpl in *. by apply (wrap_loop_fuel (length chunks')).
Qed.

Lemma wrap_positive width text :
  (0 < width)%Z →
  wrap wordsep_split width text
  = Ok (wrap_loop (length (split_chunks wordsep_split text)) width []
          (split_chunks wordsep_split text)).
Proof.
  intros Hw. unfold wrap, wrap_chunks.
  by rewrite (proj2 (Z.leb_gt _ _)) by lia.
Qed.

Lemma wrap_not_positive width text :
  (width <= 0)%Z →
  wrap wordsep_split width text
  = Raise (ValueError
      ("invalid width " +:+ pretty width +:+ " (must be > 0)")).
Proof.
  intros Hw. unfold wrap, wrap_chunks.
  by rewrite (proj2 (Z.leb_le _ _)) by lia.
Qed.

Lemma map_result_ok {X Y} (f : X → result Y) (g : X → Y) (items : list X) :
  (∀ x, f x = Ok (g x)) → map_result f items = Ok (map g items).
Proof.
  intros Hf. induction items as [|x items IH]; simpl; [done|].
  by rewrite Hf, IH.
Qed.

Lemma str_split_cons sep_char s :
  ∃ word words, str_split sep_char s = word :: words.
Proof.
  induction s as [|c s (word&words&IH)]; simpl; [by eexists _, _|].
  destruct (decide _); [by eexists _, _|]. rewrite IH. by eexists _, _.
Qed.

(** With a positive inner width the box is printed in full. *)
Lemma message_box_positive message width padding :
  (padding * 2 + 2 < width)%Z →
  message_box wordsep_split message width padding
  = Eff ([str_repeat "=" width; inner width padding ""]
         ++ map (λ line, inner width padding (expandtabs line))
              (concat
                 (map (λ line, if bool_decide (length line = 0)
                               then str_iter " " else line)
                    (map (λ text,
                            wrap_loop
                              (length (split_chunks wordsep_split text))
                              (width - padding * 2 - 2) []
                              (split_chunks wordsep_split text))
                       (str_split "010" message))))
         ++ [inner width padding ""; str_repeat "=" width])
        (Ok true).
Proof.
  intros Hw. unfold message_box.
  assert (0 < width - padding * 2 - 2)%Z as Hideal by lia.
  rewrite (map_result_ok _ _ _ (λ text, wrap_positive _ text Hideal)).
  unfold mbind, eff_bind. simpl. by rewrite for_each_emit.
Qed.

(** Without, [TextWrapper.wrap] raises after the first two lines. *)
Lemma message_box_not_positive message width padding :
  (width <= padding * 2 + 2)%Z →
  message_box wordsep_split message width padding
  = Eff [str_repeat "=" width; inner width padding ""]
        (Raise (ValueError
           ("invalid width " +:+ pretty (width - padding * 2 - 2)%Z
            +:+ " (must be > 0)"))).
Proof.
  intros Hw. unfold message_box.
  destruct (str_split_cons "010" message) as (text&texts&->). simpl.
  by rewrite wrap_not_positive by lia.
Qed.
End text_box_facts.

(** The runs of a text are not empty and make up the text. *)
Lemma runs_concat text :
  Forall (λ run, run ≠ EmptyString) (runs text) ∧
  String.concat "" (runs text) = text.
Proof.
  induction text as [|c text [IHne IH]]; simpl; [by split|].
  destruct (runs text) as [|[|c' run] rest] eqn:Hruns.
  - simpl in IH. subst. split; [by repeat constructor|done].
  - by inversion IHne.
  - apply Forall_cons in IHne as [_ IHne].
    case_bool_decide; (split; [by repeat constructor|]); rewrite <-IH.
    + by destruct rest.
    + done.
Qed.

(** [wordsep_split_plain] cuts the text: its pieces make up the text. *)
Lemma wordsep_split_plain_concat text :
  String.concat "" (wordsep_split_plain text) = text.
Proof.
  unfold wordsep_split_plain. pose proof (runs_concat text) as [_ Hconcat].
  by destruct (runs text).
Qed.

(** The three examples of the docstring of [message_box]. *)
Example message_box_docstring_75 :
  message_box wordsep_split_plain lorem_ipsum 75 3
  = Eff ["===========================================================================";
         "*                                                                         *";
         "*   Lorem ipsum dolor sit amet, consectetur adipiscing elit, sed do       *";
         "*   eiusmod tempor incididunt ut labore et dolore magna aliqua.           *";
         "*                                                                         *";
         "==========================================================================="]
        (Ok true).
Proof. by vm_compute. Qed.

Example message_box_docstring_60 :
  message_box wordsep_split_plain lorem_ipsum 60 3
  = Eff ["============================================================";
         "*                                                          *";
         "*   Lorem ipsum dolor sit amet, consectetur adipiscing     *";
         "*   elit, sed do eiusmod tempor incididunt ut labore et    *";
         "*   dolore magna aliqua.                                   *";
         "*                                                          *";
         "============================================================"]
        (Ok true).
Proof. by vm_compute. Qed.

Example message_box_docstring_padding_16 :
  message_box wordsep_split_plain lorem_ipsum 75 16
  = Eff ["===========================================================================";
         "*                                                                         *";
         "*                Lorem ipsum dolor sit amet, consectetur                  *";
         "*                adipiscing elit, sed do eiusmod tempor                   *";
         "*                incididunt ut labore et dolore magna                     *";
         "*                aliqua.                                                  *";
         "*                                                                         *";
         "==========================================================================="]
        (Ok true).
Proof. by vm_compute. Qed.

Lemma inner_single_space width padding :
  (padding * 2 + 2 < width)%Z →
  inner width padding " " = inner width padding "".
Proof.
  intros Hw. unfold inner. do 2 f_equal.
  change (len " ") with 1%Z. change (len "") with 0%Z.
  rewrite (str_repeat_pos " " (width - 0 - padding * 2 - 2)) by lia.
  by replace (width - 0 - padding * 2 - 2 - 1)%Z
    with (width - 1 - padding * 2 - 2)%Z by lia.
Qed.

(** C3 (as the code has it). For an empty message and [width > 2 * padding
    + 2], [message_box] prints, between the two border lines, exactly three
    rows: a blank padded row, the row of the single space that stands for
    the empty line, and a blank padded row; the three rows are the same
    string. *)
Theorem message_box_empty_message
    (wordsep_split : string → list string) (width padding : Z) :
  String.concat "" (wordsep_split "") = "" →
  (padding * 2 + 2 < width)%Z →
  message_box wordsep_split "" width padding
  = Eff [str_repeat "=" width;
         inner width padding ""; inner width padding " ";
         inner width padding "";
         str_repeat "=" width]
        (Ok true) ∧
  interior_rows (trace (message_box wordsep_split "" width padding))
  = [inner width padding ""; inner width padding " "; inner width padding ""]
  ∧ inner width padding " " = inner width padding "".
Proof.
  intros Hsplit Hw.
  assert (message_box wordsep_split "" width padding
    = Eff [str_repeat "=" width;
           inner width padding ""; inner width padding " ";
           inner width padding "";
           str_repeat "=" width] (Ok true)) as Hbox.
  { rewrite message_box_positive by done. simpl.
    unfold split_chunks. simpl. by rewrite string_concat_empty. }
  split; [done|]. split; [by rewrite Hbox|by apply inner_single_space].
Qed.

Lemma message_box_empty_message_witness :
  message_box wordsep_split_plain "" 79 3
  = Eff [str_repeat "=" 79;
         inner 79 3 ""; inner 79 3 " "; inner 79 3 ""; str_repeat "=" 79]
        (Ok true) ∧
  interior_rows (trace (message_box wordsep_split_plain "" 79 3))
  = [inner 79 3 ""; inner 79 3 " "; inner 79 3 ""]
  ∧ inner 79 3 " " = inner 79 3 "".
Proof.
  apply (message_box_empty_message wordsep_split_plain 79 3);
    [reflexivity|lia].
Defined.

(** C3 as stated fails: the empty message gives three interior rows, not
    four. *)
Lemma message_box_empty_message_three_rows :
  length (interior_rows (trace (message_box wordsep_split_plain "" 79 3))) = 3
  ∧ length (interior_rows (trace (message_box wordsep_split_plain "" 79 3)))
    ≠ 4.
Proof. by vm_compute. Qed.

(** C9 (as the code has it). For [width > 2 * padding + 2], [message_box]
    prints the whole box, from the top border to the bottom border, and
    returns [True], whatever the message; for [width <= 2 * padding + 2],
    [TextWrapper.wrap] raises [ValueError] once the top border and the first
    blank row are printed. *)
Theorem message_box_returns_true
    (wordsep_split : string → list string) (message : string)
    (width padding : Z) :
  ((padding * 2 + 2 < width)%Z →
   ∃ rows,
     message_box wordsep_split message width padding
     = Eff ([str_repeat "=" width; inner width padding ""] ++ rows
            ++ [inner width padding ""; str_repeat "=" width])
           (Ok true)) ∧
  ((width <= padding * 2 + 2)%Z →
   message_box wordsep_split message width padding
   = Eff [str_repeat "=" width; inner width padding ""]
         (Raise (ValueError
            ("invalid width " +:+ pretty (width - padding * 2 - 2)%Z
             +:+ " (must be > 0)")))).
Proof.
  split.
  - intros Hw. rewrite message_box_positive by done. by eexists.
  - apply message_box_not_positive.
Qed.

Lemma message_box_returns_true_witness :
  ∃ rows,
    message_box wordsep_split_plain "Hello World" 20 3
    = Eff ([str_repeat "=" 20; inner 20 3 ""] ++ rows
           ++ [inner 20 3 ""; str_repeat "=" 20])
          (Ok true).
Proof.
  apply (proj1 (message_box_returns_true wordsep_split_plain
                  "Hello World" 20 3)).
  lia.
Defined.

(** C9 as stated fails: a box too narrow for its padding raises. *)
Lemma message_box_narrow_raises :
  message_box wordsep_split_plain "" 8 3
  = Eff ["========"; "*      *"]
        (Raise (ValueError "invalid width 0 (must be > 0)")).
Proof. by vm_compute. Qed.

(** ** PatternRewriter *)

Lemma multi_replace_snoc re_sub name patterns pattern substitution :
  multi_replace re_sub name (patterns ++ [(pattern, substitution)])
  = multi_replace re_sub name patterns ≫= re_sub pattern substitution.
Proof.
  revert name. induction patterns as [|[p r] patterns IH]; intros name; simpl.
  - by destruct (re_sub pattern substitution name).
  - destruct (re_sub p r name) as [name'|e]; simpl; [apply IH|done].
Qed.

(** C5. [multi_replace] applies the pairs in order, each [re.sub] working on
    the text the one before produced, so that a later pattern can match what
    an earlier replacement wrote; the documented call gives
    ["Legends Luke Skywalker was strong and powerful."]. *)
Theorem multi_replace_sequential
    (re_sub : string → string → string → result string) :
  (∀ pattern repl text out,
     re_sub_fragment pattern repl text = Some out →
     re_sub pattern repl text = Ok out) →
  (∀ name, multi_replace re_sub name [] = Ok name) ∧
  (∀ name pattern substitution patterns,
     multi_replace re_sub name ((pattern, substitution) :: patterns)
     = re_sub pattern substitution name
       ≫= λ name', multi_replace re_sub name' patterns) ∧
  (∀ name patterns pattern substitution,
     multi_replace re_sub name (patterns ++ [(pattern, substitution)])
     = multi_replace re_sub name patterns ≫= re_sub pattern substitution) ∧
  multi_replace re_sub "Canon Luke Skywalker was weak and powerless."
    [("Canon", "Legends"); ("weak", "strong"); ("\w+less", "powerful")]
  = Ok "Legends Luke Skywalker was strong and powerful." ∧
  multi_replace re_sub "weak" [("weak", "powerless"); ("\w+less", "strong")]
  = Ok "strong".
Proof.
  intros Hfragment. split; [done|]. split; [done|].
  split; [intros; apply multi_replace_snoc|].
  split; unfold multi_replace.
  - erewrite (Hfragment "Canon") by (vm_compute; reflexivity).
    cbn [mbind result_bind].
    erewrite (Hfragment "weak") by (vm_compute; reflexivity).
    cbn [mbind result_bind].
    by erewrite (Hfragment "\w+less") by (vm_compute; reflexivity).
  - erewrite (Hfragment "weak") by (vm_compute; reflexivity).
    cbn [mbind result_bind].
    by erewrite (Hfragment "\w+less") by (vm_compute; reflexivity).
Qed.

Lemma multi_replace_sequential_witness :
  multi_replace re_sub_within_fragment
    "Canon Luke Skywalker was weak and powerless."
    [("Canon", "Legends"); ("weak", "strong"); ("\w+less", "powerful")]
  = Ok "Legends Luke Skywalker was strong and powerful.".
Proof.
  refine (proj1 (proj2 (proj2 (proj2
    (multi_replace_sequential re_sub_within_fragment _))))).
  intros pattern repl text out Hout. unfold re_sub_within_fragment.
  by rewrite Hout.
Defined.

(** ** NestedMap *)

(** Induction on nested mappings, with the hypothesis for every child. *)
Lemma tree_nested_ind (P : tree → Prop) :
  (∀ v, P (Leaf v)) →
  (∀ vivifying children,
     Forall (λ child, P child.2) children → P (Dict vivifying children)) →
  ∀ t, P t.
Proof.
  intros Hleaf Hdict. fix IH 1. intros [v|vivifying children]; [apply Hleaf|].
  apply Hdict. induction children as [|[key child] children IHc];
    constructor; [apply IH|apply IHc].
Qed.

Lemma vivified_dict vivifying children :
  vivified (Dict vivifying children)
  ↔ vivifying = true ∧ Forall (λ child, vivified child.2) children.
Proof.
  simpl. apply and_iff_compat_l.
  induction children as [|[key child] children IH].
  - split; [constructor|done].
  - rewrite Forall_cons, IH. done.
Qed.

Lemma plain_dict vivifying children :
  plain (Dict vivifying children)
  ↔ vivifying = false ∧ Forall (λ child, plain child.2) children.
Proof.
  simpl. apply and_iff_compat_l.
  induction children as [|[key child] children IH].
  - split; [constructor|done].
  - rewrite Forall_cons, IH. done.
Qed.

Lemma nesting_dict vivifying children :
  Forall (λ child, nesting child.2 < nesting (Dict vivifying children))
         children.
Proof.
  simpl. induction children as [|[key child] children IH]; constructor.
  - simpl. lia.
  - eapply Forall_impl; [exact IH|]. simpl. intros; lia.
Qed.

Lemma plain_materialize t : vivified t → plain (materialize t).
Proof.
  induction t as [v|vivifying children IH] using tree_nested_ind; [done|].
  intros [-> Hall]%vivified_dict. simpl materialize. apply plain_dict.
  split; [done|]. rewrite Forall_fmap.
  induction IH as [|child children Hchild _ IHc]; [constructor|].
  apply Forall_cons in Hall as [Hv Hall]. constructor; [by apply Hchild|auto].
Qed.

Lemma extends_refl h : extends h h.
Proof. exists []. by rewrite app_nil_r. Qed.

Lemma extends_trans h1 h2 h3 : extends h1 h2 → extends h2 h3 → extends h1 h3.
Proof.
  intros (new1&->&Hnew1) (new2&->&Hnew2). exists (new1 ++ new2).
  split; [by rewrite app_assoc|by apply Forall_app].
Qed.

Lemma extends_alloc h items : extends h (h ++ [Object false items]).
Proof. exists [Object false items]. split; [done|by repeat constructor]. Qed.

(** What was on the heap stays where it is, as it is. *)
Lemma extends_lookup h h' address o :
  extends h h' → h !! address = Some o → h' !! address = Some o.
Proof. intros (new&->&_) Ho. by apply lookup_app_l_Some. Qed.

Lemma extends_is_vivified h h' v :
  extends h h' → is_vivified h v = false → is_vivified h' v = false.
Proof.
  intros Hext. destruct v as [| | |address]; try done. simpl.
  destruct (h !! address) as [o|] eqn:Ho.
  - by rewrite (extends_lookup _ _ _ _ Hext Ho).
  - intros _. destruct Hext as (new&->&Hnew).
    apply lookup_ge_None in Ho. rewrite lookup_app_r by done.
    destruct (new !! _) as [o|] eqn:Ho'; [|done].
    apply list_elem_of_lookup_2 in Ho'. rewrite Forall_forall in Hnew. auto.
Qed.

Lemma repr_extends h h' t v : extends h h' → repr h t v → repr h' t v.
Proof.
  intros Hext. revert v.
  induction t as [x|vivifying children IH] using tree_nested_ind;
    intros v Hrepr; inversion Hrepr as [? Hleaf|? ? items ? Hobj Hitems]; subst.
  - constructor. by eapply extends_is_vivified.
  - econstructor; [by eapply extends_lookup|].
    clear Hobj Hrepr. induction Hitems as [|item child items children
      [Hkey Hchild] _ IHitems]; [constructor|].
    apply Forall_cons in IH as [IHchild IH]. constructor; auto.
Qed.

(** The comprehension converts the entries one after the other; the
    hypothesis for each child is that of the induction on the tree. *)
Lemma convert_entries_materialize depth children :
  Forall (λ child : string * tree,
    vivified child.2 → ∀ depth h v,
      repr h child.2 v → nesting child.2 < depth →
      ∃ h' v', vivified_to_dict depth h v = Ok (h', v') ∧ extends h h' ∧
               repr h' (materialize child.2) v') children →
  Forall (λ child, vivified child.2) children →
  Forall (λ child, nesting child.2 < depth) children →
  ∀ h items,
    Forall2 (λ item child, item.1 = child.1 ∧ repr h child.2 item.2)
            items children →
    ∃ h' items',
      convert_entries (vivified_to_dict depth) h items = Ok (h', items') ∧
      extends h h' ∧
      Forall2 (λ item child, item.1 = child.1 ∧ repr h' child.2 item.2)
              items' (map (λ child, (child.1, materialize child.2)) children).
Proof.
  induction children as [|[key t] children IHc];
    intros IH Hviv Hdepth h items Hitems.
  - inversion Hitems; subst. exists h, []. simpl.
    split; [done|]. split; [apply extends_refl|constructor].
  - inversion Hitems as [|[key' v] ? items' ? [Hkey Hv] Hrest]; subst.
    simpl in Hkey, Hv. subst key'.
    apply Forall_cons in IH as [IHt IH].
    apply Forall_cons in Hviv as [Hvt Hviv].
    apply Forall_cons in Hdepth as [Hdt Hdepth]. simpl in *.
    destruct (IHt Hvt depth h v Hv Hdt) as (h1&v1&Hcall&Hext1&Hv1).
    destruct (IHc IH Hviv Hdepth h1 items') as (h2&items2&Hcalls&Hext2&Hitems2).
    { eapply Forall2_impl; [exact Hrest|]. intros item child [? ?].
      split; [done|]. by eapply repr_extends. }
    exists h2, ((key, v1) :: items2). rewrite Hcall. simpl. rewrite Hcalls.
    simpl. split; [done|]. split; [by eapply extends_trans|].
    constructor; [|done]. split; [done|]. by eapply repr_extends.
Qed.

(** On a vivified structure nested less deep than the interpreter allows,
    [vivified_to_dict] returns new plain dicts that hold the materialized
    mapping; the heap only grows. *)
Lemma vivified_to_dict_materialize t :
  vivified t → ∀ depth h v,
    repr h t v → nesting t < depth →
    ∃ h' v', vivified_to_dict depth h v = Ok (h', v') ∧ extends h h' ∧
             repr h' (materialize t) v'.
Proof.
  induction t as [x|vivifying children IH] using tree_nested_ind;
    intros Hviv depth h v Hrepr Hdepth;
    (destruct depth as [|depth]; [lia|]);
    inversion Hrepr as [? Hleaf|address ? items ? Hobj Hitems]; subst.
  - exists h, v. simpl. rewrite Hleaf.
    split; [done|]. split; [apply extends_refl|done].
  - apply vivified_dict in Hviv as [-> Hviv].
    destruct (convert_entries_materialize depth children IH Hviv) with
      (h := h) (items := items) as (h'&items'&Hcalls&Hext&Hitems').
    { eapply Forall_impl; [apply (nesting_dict true)|].
      intros child ?. simpl in *. lia. }
    { done. }
    exists (h' ++ [Object false items']), (VRef (length h')).
    simpl. rewrite Hobj. simpl. rewrite Hcalls. simpl.
    split; [done|]. split.
    { eapply extends_trans; [done|apply extends_alloc]. }
    econstructor.
    + by apply list_lookup_middle.
    + eapply Forall2_impl; [exact Hitems'|]. intros item child [? ?].
      split; [done|]. eapply repr_extends; [apply extends_alloc|done].
Qed.

(** C6. For a vivified structure (nested less deep than the recursion
    limit), [vivified_to_dict] returns a plain nested mapping with the keys of
    the structure, each vivified node converted and each other value passed
    on as it is, and leaves every object that existed before unchanged; for
    [vivified['my']['attribute'] = 1] it gives [{'my': {'attribute': 1}}]. *)
Theorem vivified_to_dict_materializes :
  (∀ t depth h v,
     vivified t → repr h t v → nesting t < depth →
     ∃ h' v',
       vivified_to_dict depth h v = Ok (h', v') ∧
       repr h' (materialize t) v' ∧ plain (materialize t) ∧
       (∀ address o, h !! address = Some o → h' !! address = Some o) ∧
       repr h' t v) ∧
  (∀ h v, is_vivified h v = false → ∀ depth,
     vivified_to_dict (S depth) h v = Ok (h, v)) ∧
  (∃ h d,
     vivify_then_set 1000 = Ok (h, d) ∧
     repr h (Dict false [("my", Dict false [("attribute", Leaf (VInt 1))])])
          d).
Proof.
  split; [|split].
  - intros t depth h v Hviv Hrepr Hdepth.
    destruct (vivified_to_dict_materialize t Hviv depth h v Hrepr Hdepth)
      as (h'&v'&Hcall&Hext&Hrepr').
    exists h', v'. split; [done|]. split; [done|].
    split; [by apply plain_materialize|].
    split; [intros; by eapply extends_lookup|by eapply repr_extends].
  - intros h v Hv depth. simpl. by rewrite Hv.
  - eexists _, _. split; [by vm_compute|].
    econstructor; [reflexivity|]. repeat constructor.
    econstructor; [reflexivity|]. by repeat constructor.
Qed.

Lemma vivified_to_dict_materializes_witness :
  ∃ h' v',
    vivified_to_dict 2 [Object true [("a", VInt 1)]] (VRef 0) = Ok (h', v') ∧
    repr h' (materialize (Dict true [("a", Leaf (VInt 1))])) v' ∧
    plain (materialize (Dict true [("a", Leaf (VInt 1))])) ∧
    (∀ address o,
       [Object true [("a", VInt 1)]] !! address = Some o →
       h' !! address = Some o) ∧
    repr h' (Dict true [("a", Leaf (VInt 1))]) (VRef 0).
Proof.
  apply (proj1 vivified_to_dict_materializes
           (Dict true [("a", Leaf (VInt 1))]) 2
           [Object true [("a", VInt 1)]] (VRef 0)).
  - simpl. auto.
  - econstructor; [reflexivity|]. by repeat constructor.
  - simpl. lia.
Defined.

(** Reading a missing key creates it: the key is then in the result. *)
Example vivified_to_dict_after_read :
  let '(h, root) := vivification [] in
  ∃ h1 child h2 d,
    vivified_getitem h root "ghost" = Ok (h1, child) ∧
    vivified_to_dict 1000 h1 root = Ok (h2, d) ∧
    repr h2 (Dict false [("ghost", Dict false [])]) d.
Proof.
  simpl. eexists _, _, _, _. split; [reflexivity|]. split; [by vm_compute|].
  econstructor; [reflexivity|]. repeat constructor.
  econstructor; [reflexivity|]. constructor.
Qed.

(** * Further properties *)

(** ** SequenceOps: [common_ancestor] as a longest common prefix *)

Section common_prefix_facts.
Context {A : Type} `{Countable A} `{PyLt A}.
Implicit Types (args : list (list A)) (a b m p : list A).

Lemma longest_common_prefix_unique args m m' :
  longest_common_prefix args m → longest_common_prefix args m' → m = m'.
Proof.
  intros [Hm Hlong] [Hm' Hlong'].
  apply (anti_symm prefix); [by apply Hlong'|by apply Hlong].
Qed.

Lemma common_ancestor_lcp a rest m :
  common_ancestor (a :: rest) = Ok m ↔ longest_common_prefix (a :: rest) m.
Proof.
  destruct (common_ancestor_longest_prefix a rest) as (m0&Hm0&Hpre&Hlong).
  rewrite Hm0. split.
  - by intros [= <-].
  - intros Hlcp. f_equal. by apply (longest_common_prefix_unique (a :: rest)).
Qed.

(** X1. For at least one input, [common_ancestor] returns the longest common
    prefix of the inputs: a prefix of every input that every common prefix
    is a prefix of. *)
Theorem common_ancestor_is_longest_common_prefix a rest :
  ∃ m, common_ancestor (a :: rest) = Ok m ∧
       longest_common_prefix (a :: rest) m.
Proof.
  destruct (common_ancestor_longest_prefix a rest) as (m&Hm&Hpre&Hlong).
  by exists m.
Qed.

(** X2. [common_ancestor] raises exactly when it is called without input,
    and then it is the [ValueError] of [min]. *)
Theorem common_ancestor_raises_iff_empty args :
  ((∃ e, common_ancestor args = Raise e) ↔ args = []) ∧
  (∀ e, common_ancestor args = Raise e →
        e = ValueError "min() arg is an empty sequence").
Proof.
  destruct args as [|a rest].
  - split; [split; [done|by eexists]|by intros e [= <-]].
  - destruct (common_ancestor_longest_prefix a rest) as (m&->&_).
    split; [split; [by intros [e ?]|done]|done].
Qed.

(** X3. The order of the inputs does not matter. *)
Theorem common_ancestor_permutation args args' :
  args ≡ₚ args' → common_ancestor args = common_ancestor args'.
Proof.
  intros Hperm. destruct args as [|a rest], args' as [|a' rest'].
  - done.
  - by apply Permutation_nil_l in Hperm.
  - by apply Permutation_nil_r in Hperm.
  - destruct (common_ancestor_longest_prefix a rest) as (m&Hm&Hpre&Hlong).
    rewrite Hm. symmetry. apply common_ancestor_lcp. split.
    + intros x Hx. apply Hpre. by rewrite Hperm.
    + intros p Hp. apply Hlong. intros x Hx. apply Hp. by rewrite <-Hperm.
Qed.

(** X4. One more input can only shorten the result. *)
Theorem common_ancestor_more_inputs b a rest :
  ∃ m m', common_ancestor (a :: rest) = Ok m ∧
          common_ancestor (b :: a :: rest) = Ok m' ∧ m' `prefix_of` m.
Proof.
  destruct (common_ancestor_longest_prefix a rest) as (m&Hm&_&Hlong).
  destruct (common_ancestor_longest_prefix b (a :: rest)) as (m'&Hm'&Hpre'&_).
  exists m, m'. split; [done|]. split; [done|].
  apply Hlong. intros x Hx. apply Hpre'. by right.
Qed.

(** X5. The common ancestor of two groups of inputs is the common ancestor
    of the common ancestors of the groups. *)
Theorem common_ancestor_of_ancestors x xs y ys :
  ∃ mx my, common_ancestor (x :: xs) = Ok mx ∧
           common_ancestor (y :: ys) = Ok my ∧
           common_ancestor [mx; my] = common_ancestor ((x :: xs) ++ y :: ys).
Proof.
  destruct (common_ancestor_longest_prefix x xs) as (mx&Hmx&Hprex&Hlongx).
  destruct (common_ancestor_longest_prefix y ys) as (my&Hmy&Hprey&Hlongy).
  destruct (common_ancestor_longest_prefix mx [my]) as (m&Hm&Hpre&Hlong).
  exists mx, my. split; [done|]. split; [done|]. rewrite Hm. symmetry.
  apply (common_ancestor_lcp x (xs ++ y :: ys)). split.
  - intros z [Hz|Hz]%(elem_of_app (x :: xs)).
    + trans mx; [apply Hpre; by left|by apply Hprex].
    + trans my; [apply Hpre; by right; left|by apply Hprey].
  - intros p Hp. apply Hlong.
    intros z [-> | ->%list_elem_of_singleton]%elem_of_cons.
    + apply Hlongx. intros w Hw. apply Hp, (elem_of_app (x :: xs)). by left.
    + apply Hlongy. intros w Hw. apply Hp, (elem_of_app (x :: xs)). by right.
Qed.
End common_prefix_facts.

Lemma common_ancestor_permutation_witness :
  common_ancestor [["a"; "b"]; ["a"]; ["a"; "c"]]
  = common_ancestor [["a"]; ["a"; "c"]; ["a"; "b"]].
Proof.
  apply common_ancestor_permutation.
  by rewrite (Permutation_cons_append [["a"]; ["a"; "c"]] ["a"; "b"]).
Defined.

(** ** [paths_common_ancestor]: the result as a part of the paths *)

Lemma string_app_assoc (s1 s2 s3 : string) :
  (s1 +:+ s2) +:+ s3 = s1 +:+ s2 +:+ s3.
Proof.
  induction s1 as [|c s1 IH]; [done|].
  change (String c ((s1 +:+ s2) +:+ s3) = String c (s1 +:+ s2 +:+ s3)).
  by f_equal.
Qed.

Section path_prefix_facts.
Context (os_sep : ascii).
Implicit Types (path ancestor : string) (paths : list string).

Local Abbreviation sep := (String os_sep EmptyString) (only parsing).

(** Joining undoes splitting, for every string. *)
Lemma str_join_split path : str_join sep (str_split os_sep path) = path.
Proof.
  induction path as [|c path IH]; [done|]. simpl.
  destruct (str_split_cons os_sep path) as (word&words&Hsplit).
  rewrite Hsplit in *. destruct (decide (c = os_sep)) as [->|Hc].
  - change (str_join sep (EmptyString :: word :: words))
      with (String os_sep (str_join sep (word :: words))).
    by rewrite IH.
  - rewrite <-IH. by destruct words.
Qed.

Lemma str_join_app (front back : list string) :
  front ≠ [] → back ≠ [] →
  str_join sep (front ++ back)
  = str_join sep front +:+ sep +:+ str_join sep back.
Proof.
  intros Hfront Hback. induction front as [|word [|word' front] IH]; [done| |].
  - destruct back; done.
  - change (str_join sep ((word :: word' :: front) ++ back))
      with (word +:+ sep +:+ str_join sep ((word' :: front) ++ back)).
    rewrite IH by done.
    change (str_join sep (word :: word' :: front))
      with (word +:+ sep +:+ str_join sep (word' :: front)).
    by rewrite !string_app_assoc.
Qed.

(** X6. The common ancestor of copies of one path is that path, whatever
    the path. *)
Theorem paths_common_ancestor_same path (n : nat) :
  paths_common_ancestor os_sep (replicate (S n) path) = Ok path.
Proof.
  unfold paths_common_ancestor. rewrite fmap_replicate.
  destruct (common_ancestor_longest_prefix (str_split os_sep path)
    (replicate n (str_split os_sep path))) as (m&Hm&Hpre&Hlong).
  change (replicate (S n) (str_split os_sep path))
    with (str_split os_sep path :: replicate n (str_split os_sep path)).
  rewrite Hm. simpl. do 2 f_equal.
  assert (m = str_split os_sep path) as ->; [|apply str_join_split].
  apply (anti_symm prefix); [apply Hpre; by left|].
  apply Hlong. by intros x [->|[-> _]%elem_of_replicate]%elem_of_cons.
Qed.

(** X7. The result is cut out of every path at a separator: a path is the
    result itself, or the result followed by the separator and more, unless
    the result is empty. *)
Theorem paths_common_ancestor_prefix paths ancestor path :
  paths_common_ancestor os_sep paths = Ok ancestor → path ∈ paths →
  path = ancestor ∨ ancestor = EmptyString ∨
  ∃ more, path = ancestor +:+ String os_sep more.
Proof.
  unfold paths_common_ancestor. intros Hancestor Hpath.
  destruct paths as [|first paths]; [by apply elem_of_nil in Hpath|].
  destruct (common_ancestor_longest_prefix (str_split os_sep first)
    (map (str_split os_sep) paths)) as (m&Hm&Hpre&_).
  change (map (str_split os_sep) (first :: paths))
    with (str_split os_sep first :: map (str_split os_sep) paths)
    in Hancestor.
  rewrite Hm in Hancestor. injection Hancestor as <-.
  destruct (Hpre (str_split os_sep path)) as [back Hback].
  { change (str_split os_sep path ∈ map (str_split os_sep) (first :: paths)).
    by apply list_elem_of_fmap_2. }
  rewrite <-(str_join_split path), Hback.
  destruct m as [|word m]; [by right; left|].
  destruct back as [|word' back]; [left; by rewrite app_nil_r|].
  right; right. exists (str_join sep (word' :: back)).
  by rewrite str_join_app.
Qed.
End path_prefix_facts.

Lemma paths_common_ancestor_prefix_witness :
  "/usr/lib/x" = "/usr" ∨ "/usr" = EmptyString ∨
  ∃ more, "/usr/lib/x" = "/usr" +:+ String "/" more.
Proof.
  apply (paths_common_ancestor_prefix "/" ["/usr/lib/x"; "/usr/bin"]).
  - by vm_compute.
  - by left.
Defined.

(** ** NestedMap: what [vivified_to_dict] does to the heap *)

Lemma convert_entries_extends
    (convert : heap → value → result (heap * value)) :
  (∀ h v r, convert h v = Ok r → extends h r.1) →
  ∀ items h r, convert_entries convert h items = Ok r → extends h r.1.
Proof.
  intros Hconvert. induction items as [|[key v] items IH]; intros h r; simpl.
  - intros [= <-]. apply extends_refl.
  - destruct (convert h v) as [r1|e] eqn:Hv; [|done]. simpl.
    destruct (convert_entries convert r1.1 items) as [rs|e] eqn:Hrest; [|done].
    simpl. intros [= <-]. simpl.
    eapply extends_trans; [by eapply Hconvert|by eapply IH].
Qed.

Lemma vivified_to_dict_extends depth h v r :
  vivified_to_dict depth h v = Ok r → extends h r.1.
Proof.
  revert h v r. induction depth as [|depth IH]; intros h v r; [done|]. simpl.
  destruct (is_vivified h v); [|intros [= <-]; apply extends_refl].
  destruct v as [| | |address]; try (intros [= <-]; apply extends_refl).
  destruct (h !! address) as [o|]; [|intros [= <-]; apply extends_refl].
  destruct (convert_entries _ h (entries o)) as [rs|e] eqn:Hrs; [|done].
  simpl. intros [= <-]. simpl.
  eapply extends_trans; [|apply extends_alloc].
  eapply convert_entries_extends; [|exact Hrs]. apply IH.
Qed.

Lemma convert_entries_raises
    (convert : heap → value → result (heap * value)) :
  (∀ h v e, convert h v = Raise e → e = RecursionError) →
  ∀ items h e, convert_entries convert h items = Raise e → e = RecursionError.
Proof.
  intros Hconvert. induction items as [|[key v] items IH]; intros h e; simpl.
  - done.
  - destruct (convert h v) as [r1|e1] eqn:Hv; simpl.
    + destruct (convert_entries convert r1.1 items) as [rs|e2] eqn:Hrest;
        [done|].
      simpl. intros [= <-]. by eapply IH.
    + intros [= <-]. by eapply Hconvert.
Qed.

Lemma vivified_to_dict_raises depth h v e :
  vivified_to_dict depth h v = Raise e → e = RecursionError.
Proof.
  revert h v e. induction depth as [|depth IH]; intros h v e; simpl.
  - by intros [= <-].
  - destruct (is_vivified h v); [|done].
    destruct v as [| | |address]; try done.
    destruct (h !! address) as [o|]; [|done].
    destruct (convert_entries _ h (entries o)) as [rs|e1] eqn:Hrs; [done|].
    simpl. intros [= <-]. eapply convert_entries_raises; [|exact Hrs].
    apply IH.
Qed.

(** X8. Whatever the heap holds, a call of [vivified_to_dict] that returns
    has changed no object: the heap it leaves is the heap it found, then new
    plain dicts. The only exception it raises is [RecursionError]. *)
Theorem vivified_to_dict_only_allocates depth h v :
  (∀ h' v', vivified_to_dict depth h v = Ok (h', v') →
     extends h h' ∧
     ∀ address o, h !! address = Some o → h' !! address = Some o) ∧
  (∀ e, vivified_to_dict depth h v = Raise e → e = RecursionError).
Proof.
  split; [|apply vivified_to_dict_raises].
  intros h' v' Hcall. apply vivified_to_dict_extends in Hcall.
  split; [done|]. intros address o. by apply extends_lookup.
Qed.

Lemma vivified_to_dict_result_plain depth h v r :
  vivified_to_dict depth h v = Ok r → is_vivified r.1 r.2 = false.
Proof.
  destruct depth as [|depth]; [done|]. simpl.
  destruct (is_vivified h v) eqn:Hv; [|by intros [= <-]].
  destruct v as [| | |address]; try done. simpl in Hv.
  destruct (h !! address) as [o|]; [|done].
  destruct (convert_entries _ h (entries o)) as [rs|e]; [|done].
  simpl. intros [= <-]. simpl. by rewrite list_lookup_middle.
Qed.

(** X9. Converting the result once more gives it back and leaves the heap
    as it is. *)
Theorem vivified_to_dict_idempotent depth depth' h v h' v' :
  vivified_to_dict depth h v = Ok (h', v') →
  vivified_to_dict (S depth') h' v' = Ok (h', v').
Proof.
  intros Hplain%vivified_to_dict_result_plain. simpl in *. by rewrite Hplain.
Qed.

Lemma vivified_to_dict_idempotent_witness :
  vivified_to_dict 1 [Object true []; Object false []] (VRef 1)
  = Ok ([Object true []; Object false []], VRef 1).
Proof.
  apply (vivified_to_dict_idempotent 1 0 [Object true []] (VRef 0)).
  reflexivity.
Defined.

Lemma vivified_to_dict_only_allocates_witness :
  extends [Object true [("a", VInt 1)]]
    [Object true [("a", VInt 1)]; Object false [("a", VInt 1)]] ∧
  ∀ address o,
    [Object true [("a", VInt 1)]] !! address = Some o →
    [Object true [("a", VInt 1)]; Object false [("a", VInt 1)]] !! address
    = Some o.
Proof.
  apply (proj1 (vivified_to_dict_only_allocates 2
    [Object true [("a", VInt 1)]] (VRef 0)) _ (VRef 1)).
  reflexivity.
Defined.

Lemma convert_entries_cycle depth h address key :
  (∀ h', extends h h' →
     vivified_to_dict depth h' (VRef address) = Raise RecursionError) →
  ∀ items h', extends h h' → (key, VRef address) ∈ items →
    convert_entries (vivified_to_dict depth) h' items = Raise RecursionError.
Proof.
  intros Hcycle. induction items as [|[key' v] items IH]; intros h' Hext Hin.
  - by apply elem_of_nil in Hin.
  - simpl. apply elem_of_cons in Hin as [[= <- <-]|Hin].
    + by rewrite Hcycle.
    + destruct (vivified_to_dict depth h' v) as [r|e] eqn:Hv; simpl.
      * rewrite IH; [done| |done].
        eapply extends_trans; [done|by eapply vivified_to_dict_extends].
      * by rewrite (vivified_to_dict_raises _ _ _ _ Hv).
Qed.

(** X10. A vivified node that holds itself under one of its keys cannot be
    converted: whatever depth the interpreter allows, the call raises
    [RecursionError]. *)
Theorem vivified_to_dict_cycle depth h address items key :
  h !! address = Some (Object true items) →
  (key, VRef address) ∈ items →
  vivified_to_dict depth h (VRef address) = Raise RecursionError.
Proof.
  intros Hobj Hin. revert h Hobj.
  induction depth as [|depth IH]; intros h Hobj; [done|].
  simpl. rewrite Hobj. simpl.
  rewrite (convert_entries_cycle depth h address key); [done| |apply extends_refl|done].
  intros h' Hext. apply IH. by eapply extends_lookup.
Qed.

Lemma vivified_to_dict_cycle_witness :
  vivified_to_dict 1000 [Object true [("self", VRef 0)]] (VRef 0)
  = Raise RecursionError.
Proof.
  apply (vivified_to_dict_cycle 1000 _ 0 [("self", VRef 0)] "self").
  - reflexivity.
  - by left.
Defined.

(** ** NestedMap: reading and writing a vivified node *)

Lemma dict_get_set key x items : dict_get key (dict_set key x items) = Some x.
Proof.
  induction items as [|[k v] items IH]; simpl.
  - by rewrite decide_True.
  - destruct (decide (k = key)) as [->|Hk]; simpl.
    + by rewrite decide_True.
    + by rewrite decide_False.
Qed.

Lemma dict_get_set_ne key key' x items :
  key' ≠ key → dict_get key' (dict_set key x items) = dict_get key' items.
Proof.
  intros Hne. induction items as [|[k v] items IH]; simpl.
  - by rewrite decide_False.
  - destruct (decide (k = key)) as [->|Hk]; simpl.
    + by rewrite !decide_False.
    + by rewrite IH.
Qed.


(** X11. After [v[key] = x], reading [v[key]] gives [x] and changes
    nothing; a key that was there keeps its value; no other object is
    touched. *)
Theorem vivified_setitem_getitem h v key x h' :
  vivified_setitem h v key x = Ok h' →
  vivified_getitem h' v key = Ok (h', x) ∧
  (∀ key' y, key' ≠ key → vivified_getitem h v key' = Ok (h, y) →
     vivified_getitem h' v key' = Ok (h', y)) ∧
  (∀ address, v ≠ VRef address → h' !! address = h !! address).
Proof.
  unfold vivified_setitem, vivified_getitem.
  destruct v as [| | |address]; try done.
  destruct (h !! address) as [o|] eqn:Ho; [|done]. intros [= <-].
  pose proof (lookup_lt_Some _ _ _ Ho) as Hlt.
  rewrite list_lookup_insert_eq by done. simpl. rewrite dict_get_set.
  split; [done|]. split.
  - intros key' y Hne. rewrite dict_get_set_ne by done.
    destruct (dict_get key' (entries o)) as [y'|]; [by intros [= <-]|].
    destruct (is_defaultdict o); [|done]. simpl. intros [= Hh _].
    apply (f_equal length) in Hh. rewrite length_insert, length_app in Hh.
    simpl in Hh. lia.
  - intros address' Hne. apply list_lookup_insert_ne. congruence.
Qed.

Lemma vivified_setitem_getitem_witness :
  vivified_getitem [Object true [("a", VInt 2)]] (VRef 0) "a"
  = Ok ([Object true [("a", VInt 2)]], VInt 2).
Proof.
  refine (proj1 (vivified_setitem_getitem [Object true [("a", VInt 1)]]
                   (VRef 0) "a" (VInt 2) _ _)).
  reflexivity.
Defined.



(** X13. For all keys and every value that is not a dict, after
    [vivified[key1][key2] = x] on a new vivified node, [vivified[key1][key2]]
    reads [x] back without changing anything, and [vivified_to_dict] gives
    [{key1: {key2: x}}]. *)
Theorem chained_assignment_materializes (key1 key2 : string) (x : value) :
  (∀ address, x ≠ VRef address) →
  ∃ h root,
    chained_assignment key1 key2 x = Ok (h, root) ∧
    chained_lookup h root key1 key2 = Ok (h, x) ∧
    ∃ h' d,
      vivified_to_dict 3 h root = Ok (h', d) ∧
      repr h' (Dict false [(key1, Dict false [(key2, Leaf x)])]) d.
Proof.
  intros Hscalar.
  exists [Object true [(key1, VRef 1)]; Object true [(key2, x)]], (VRef 0).
  split; [done|]. split.
  { unfold chained_lookup, vivified_getitem. simpl.
    rewrite decide_True by done. simpl. by rewrite decide_True. }
  assert (∀ h, is_vivified h x = false) as Hx.
  { intros h. destruct x as [| | |address]; try done. by destruct (Hscalar address). }
  eexists _, _. split.
  { simpl. rewrite Hx. simpl. reflexivity. }
  econstructor; [reflexivity|]. repeat constructor.
  econstructor; [reflexivity|]. repeat constructor. apply Hx.
Qed.

Lemma chained_assignment_materializes_witness :
  ∃ h root,
    chained_assignment "colorspace" "name" (VStr "ACEScg") = Ok (h, root) ∧
    chained_lookup h root "colorspace" "name" = Ok (h, VStr "ACEScg") ∧
    ∃ h' d,
      vivified_to_dict 3 h root = Ok (h', d) ∧
      repr h'
        (Dict false [("colorspace", Dict false [("name", Leaf (VStr "ACEScg"))])])
        d.
Proof.
  by apply (chained_assignment_materializes "colorspace" "name"
              (VStr "ACEScg")).
Defined.

(** ** CapabilityGate: the probes and the order of the checks *)

Lemma eff_bind_assoc {E X Y Z} (m : eff E X) (f : X → eff E Y)
    (g : Y → eff E Z) :
  (m ≫= f) ≫= g = m ≫= (λ x, f x ≫= g).
Proof.
  unfold mbind, eff_bind. destruct m as [t [x|e]]; simpl; [|done].
  destruct (f x) as [t' [y|e]]; simpl; [|done].
  by rewrite app_assoc.
Qed.

Lemma for_each_app {E X} (body : X → eff E unit) (items items' : list X) :
  for_each body (items ++ items')
  = (for_each body items;; for_each body items').
Proof.
  induction items as [|x items IH]; simpl.
  - unfold mbind, eff_bind. simpl. by destruct (for_each body items').
  - by rewrite IH, eff_bind_assoc.
Qed.

Section probe_facts.
Context (import_error : string → option string).
Context {Args R : Type}.
Implicit Types (requirement : string) (requirements : list string).



(** X16. The requirements are checked from left to right: checking a list
    followed by another is checking the first, and then, if that raised
    nothing, the second; when a check of the first list raises, the second
    list is not looked at. *)
Theorem required_app requirements requirements'
    (function : Args → result R) (args : Args) :
  required import_error (requirements ++ requirements') function args
  = (for_each (check_requirement import_error) requirements;;
     required import_error requirements' function args) ∧
  (∀ e,
     outcome (for_each (check_requirement (Args:=Args) import_error)
                requirements) = Raise e →
     required import_error (requirements ++ requirements') function args
     = required import_error requirements function args).
Proof.
  assert (required import_error (requirements ++ requirements') function args
    = (for_each (check_requirement import_error) requirements;;
       required import_error requirements' function args)) as Happ.
  { unfold required. by rewrite for_each_app, eff_bind_assoc. }
  split; [done|]. intros e Hraise. rewrite Happ.
  unfold required, mbind, eff_bind. by rewrite Hraise.
Qed.
End probe_facts.


(** ** TextBox: what [TextWrapper.wrap] keeps and what the box looks like *)

Lemma len_app (s1 s2 : string) : len (s1 +:+ s2) = (len s1 + len s2)%Z.
Proof.
  unfold len. induction s1 as [|c s1 IH]; [done|].
  change (String c s1 +:+ s2) with (String c (s1 +:+ s2)). simpl String.length.
  lia.
Qed.

Lemma len_nonneg (s : string) : (0 <= len s)%Z.
Proof. unfold len. lia. Qed.

Lemma string_concat_cons (chunk : string) (chunks : list string) :
  String.concat "" (chunk :: chunks) = chunk +:+ String.concat "" chunks.
Proof.
  destruct chunks as [|chunk' chunks]; simpl.
  - induction chunk as [|c chunk IH]; [done|].
    change (String c chunk +:+ "") with (String c (chunk +:+ "")).
    by rewrite <-IH.
  - done.
Qed.

Lemma string_concat_app (chunks chunks' : list string) :
  String.concat "" (chunks ++ chunks')
  = String.concat "" chunks +:+ String.concat "" chunks'.
Proof.
  induction chunks as [|chunk chunks IH]; [done|].
  change ((chunk :: chunks) ++ chunks') with (chunk :: (chunks ++ chunks')).
  by rewrite !string_concat_cons, IH, string_app_assoc.
Qed.

Lemma len_concat (chunks : list string) :
  len (String.concat "" chunks) = total_len chunks.
Proof.
  induction chunks as [|chunk chunks IH]; [done|].
  rewrite string_concat_cons, len_app, IH. done.
Qed.

Lemma total_len_app (chunks chunks' : list string) :
  total_len (chunks ++ chunks') = (total_len chunks + total_len chunks')%Z.
Proof.
  induction chunks as [|chunk chunks IH]; simpl; [done|].
  unfold total_len in *. simpl. rewrite IH. lia.
Qed.

Lemma total_len_nonneg (chunks : list string) : (0 <= total_len chunks)%Z.
Proof.
  induction chunks as [|chunk chunks IH]; [done|].
  unfold total_len in *. simpl. pose proof (len_nonneg chunk). lia.
Qed.

(** The inner loop takes chunks from the front while they fit. *)
Lemma fill_line_spec (width : Z) cur_line cur_len chunks :
  ∃ taken,
    (fill_line width cur_line cur_len chunks).1.1 = cur_line ++ taken ∧
    chunks = taken ++ (fill_line width cur_line cur_len chunks).2 ∧
    ((cur_len <= width)%Z → (cur_len + total_len taken <= width)%Z).
Proof.
  revert cur_line cur_len. induction chunks as [|chunk chunks IH];
    intros cur_line cur_len; simpl.
  - exists []. rewrite app_nil_r. split; [done|]. split; [done|].
    unfold total_len. simpl. lia.
  - destruct (cur_len + len chunk <=? width)%Z eqn:Hfit.
    + destruct (IH (cur_line ++ [chunk]) (cur_len + len chunk)%Z)
        as (taken&Hline&Hchunks&Hlen).
      exists (chunk :: taken). rewrite Hline, <-app_assoc.
      split; [done|]. split; [simpl; f_equal; exact Hchunks|].
      intros _. apply Z.leb_le in Hfit. specialize (Hlen Hfit).
      unfold total_len in *. simpl. lia.
    + exists []. simpl. rewrite app_nil_r. split; [done|]. split; [done|].
      unfold total_len. simpl. lia.
Qed.

Lemma drop_leading_space_spec (lines chunks : list string) :
  ∃ lead, chunks = lead ++ drop_leading_space lines chunks ∧
          Forall (λ chunk, all_space chunk = true) lead.
Proof.
  unfold drop_leading_space. destruct chunks as [|chunk chunks].
  - by exists [].
  - destruct (all_space chunk) eqn:Hspace; simpl; [|by exists []].
    destruct (bool_decide (lines ≠ [])); [|by exists []].
    exists [chunk]. split; [done|]. by repeat constructor.
Qed.

Lemma long_word_step_spec (width : Z) (chunks cur_line : list string) :
  cur_line ++ chunks
  = (long_word_step width chunks cur_line).2
    ++ (long_word_step width chunks cur_line).1 ∧
  ((long_word_step width chunks cur_line).2 = cur_line ∨
   ∃ chunk, (long_word_step width chunks cur_line).2 = [chunk] ∧
            (width < len chunk)%Z).
Proof.
  unfold long_word_step, handle_long_word.
  destruct chunks as [|chunk chunks]; [by split; [|left]|].
  destruct (width <? len chunk)%Z eqn:Hlong; [|by split; [|left]].
  destruct cur_line as [|first cur_line]; [|by split; [|left]].
  simpl. split; [done|]. right. exists chunk. split; [done|].
  by apply Z.ltb_lt.
Qed.

Lemma drop_trailing_space_spec (cur_line : list string) :
  ∃ trail, cur_line = drop_trailing_space cur_line ++ trail ∧
           Forall (λ chunk, all_space chunk = true) trail.
Proof.
  unfold drop_trailing_space.
  destruct (last cur_line) as [chunk|] eqn:Hlast;
    [|exists []; by rewrite app_nil_r].
  destruct (all_space chunk) eqn:Hspace; [|exists []; by rewrite app_nil_r].
  apply last_Some in Hlast as [front ->]. exists [chunk].
  rewrite removelast_last. split; [done|]. by repeat constructor.
Qed.

(** One turn of the outer loop: of the chunks in front, whitespace at the
    start and at the end is dropped, the chunks between make the line, and
    the line fits the width unless it is one chunk too long for any line. *)
Lemma wrap_line_spec (width : Z) (lines chunks : list string) :
  ∃ lead cur trail,
    chunks = lead ++ cur ++ trail ++ (wrap_line width lines chunks).1 ∧
    Forall (λ chunk, all_space chunk = true) lead ∧
    Forall (λ chunk, all_space chunk = true) trail ∧
    (wrap_line width lines chunks).2
    = (if bool_decide (cur ≠ []) then lines ++ [String.concat "" cur]
       else lines) ∧
    ((0 <= width)%Z →
     (total_len cur <= width)%Z ∨
     ∃ chunk, cur = [chunk] ∧ (width < len chunk)%Z).
Proof.
  unfold wrap_line.
  destruct (drop_leading_space_spec lines chunks) as (lead&Hlead&Hlead_space).
  destruct (fill_line_spec width [] 0 (drop_leading_space lines chunks))
    as (taken&Htaken&Hchunks&Hfit).
  destruct (fill_line width [] 0 (drop_leading_space lines chunks))
    as [[cur_line cur_len] rest].
  simpl in Htaken, Hchunks. subst cur_line.
  destruct (long_word_step_spec width rest taken) as [Hstep Hlong].
  destruct (long_word_step width rest taken) as [rest' cur_full].
  simpl in Hstep, Hlong.
  destruct (drop_trailing_space_spec cur_full) as (trail&Htrail&Htrail_space).
  exists lead, (drop_trailing_space cur_full), trail. simpl.
  split; [|split; [done|split; [done|split; [done|]]]].
  - rewrite Hlead, Hchunks, Hstep. rewrite Htrail at 1.
    by rewrite <-!app_assoc.
  - intros Hwidth. destruct Hlong as [->|(chunk&->&Hchunk)].
    + left. specialize (Hfit Hwidth).
      rewrite Htrail, total_len_app in Hfit.
      pose proof (total_len_nonneg trail). lia.
    + destruct trail as [|space trail].
      * rewrite app_nil_r in Htrail. rewrite <-Htrail. right. by exists chunk.
      * left. destruct (drop_trailing_space [chunk]) as [|c l] eqn:Hd;
          [unfold total_len; simpl; lia|].
        apply (f_equal length) in Htrail. rewrite length_app in Htrail.
        simpl in Htrail. lia.
Qed.

(** What holds at the start and is kept by every turn holds at the end,
    when no chunk is left. *)
Lemma wrap_loop_invariant (I : list string → list string → Prop) (width : Z) :
  (∀ lines chunks, chunks ≠ [] → I lines chunks →
     I (wrap_line width lines chunks).2 (wrap_line width lines chunks).1) →
  ∀ fuel lines chunks, length chunks ≤ fuel → I lines chunks →
    I (wrap_loop fuel width lines chunks) [].
Proof.
  intros Hturn. induction fuel as [|fuel IH]; intros lines chunks Hfuel HI.
  - destruct chunks; [done|simpl in Hfuel; lia].
  - destruct chunks as [|chunk chunks]; [done|]. simpl.
    pose proof (wrap_line_shrinks width lines chunk chunks) as Hshrink.
    pose proof (Hturn lines (chunk :: chunks) ltac:(done) HI) as HI'.
    destruct (wrap_line width lines (chunk :: chunks)) as [chunks' lines'].
    simpl in *. apply IH; [lia|done].
Qed.

Lemma non_space_cons (c : ascii) (s : string) :
  non_space (String c s)
  = if is_space c then non_space s else c :: non_space s.
Proof.
  unfold non_space. simpl. rewrite filter_cons.
  destruct (is_space c); by case_decide.
Qed.

Lemma non_space_app (s1 s2 : string) :
  non_space (s1 +:+ s2) = non_space s1 ++ non_space s2.
Proof.
  induction s1 as [|c s1 IH]; [done|].
  change (String c s1 +:+ s2) with (String c (s1 +:+ s2)).
  rewrite !non_space_cons, IH. by destruct (is_space c).
Qed.

Lemma non_space_all_space (s : string) : all_space s = true → non_space s = [].
Proof.
  induction s as [|c s IH]; [done|]. simpl.
  intros [Hc Hs]%andb_true_iff. rewrite non_space_cons, Hc. auto.
Qed.

Lemma non_space_concat (chunks : list string) :
  non_space (String.concat "" chunks) = concat (map non_space chunks).
Proof.
  induction chunks as [|chunk chunks IH]; [done|].
  by rewrite string_concat_cons, non_space_app, IH.
Qed.

Lemma non_space_spaces (n : Z) : non_space (str_repeat " " n) = [].
Proof.
  unfold str_repeat. induction (Z.to_nat n) as [|k IH]; [done|].
  simpl. change (" " +:+ ?s) with (String " " s). by rewrite non_space_cons.
Qed.

(** Expanding tabs changes whitespace only. *)
Lemma non_space_expandtabs (tabsize column : nat) (s : string) :
  non_space (expandtabs_from tabsize column s) = non_space s.
Proof.
  revert column. induction s as [|c s IH]; intros column; [done|]. simpl.
  destruct (decide (c = "009"%char)) as [->|Hc].
  - rewrite (non_space_cons "009"). simpl.
    destruct (decide (0 < tabsize)); [|done].
    by rewrite non_space_app, non_space_spaces, IH.
  - by rewrite !non_space_cons, IH.
Qed.

(** The line feeds a message is split at are whitespace. *)
Lemma non_space_split_lines (message : string) :
  concat (map non_space (str_split "010" message)) = non_space message.
Proof.
  induction message as [|c message IH]; [done|]. simpl.
  destruct (str_split_cons "010" message) as (word&words&Hsplit).
  rewrite Hsplit in *. destruct (decide (c = "010"%char)) as [->|Hc].
  - by rewrite (non_space_cons "010"), <-IH.
  - simpl in *. rewrite !non_space_cons, <-IH.
    by destruct (is_space c).
Qed.

Lemma non_space_dropped (chunks : list string) :
  Forall (λ chunk, all_space chunk = true) chunks →
  concat (map non_space chunks) = [].
Proof.
  induction 1 as [|chunk chunks Hchunk _ IH]; [done|]. simpl.
  by rewrite non_space_all_space, IH.
Qed.

Lemma non_space_filter_empty (pieces : list string) :
  concat (map non_space (filter (λ c, c ≠ EmptyString) pieces))
  = concat (map non_space pieces).
Proof.
  induction pieces as [|piece pieces IH]; [done|]. rewrite filter_cons.
  destruct (decide (piece ≠ EmptyString)) as [|Hempty]; simpl; [by rewrite IH|].
  apply dec_stable in Hempty as ->. by rewrite IH.
Qed.

Lemma occurs_app (c : ascii) (s1 s2 : string) :
  occurs c (s1 +:+ s2) = occurs c s1 || occurs c s2.
Proof.
  induction s1 as [|c' s1 IH]; [done|].
  change (String c' s1 +:+ s2) with (String c' (s1 +:+ s2)). simpl.
  by rewrite IH, orb_assoc.
Qed.

Lemma occurs_concat (c : ascii) (chunks : list string) :
  occurs c (String.concat "" chunks) = false
  ↔ Forall (λ chunk, occurs c chunk = false) chunks.
Proof.
  induction chunks as [|chunk chunks IH]; [by split; [constructor|]|].
  rewrite string_concat_cons, occurs_app, orb_false_iff, Forall_cons, IH.
  done.
Qed.

Lemma occurs_spaces (n : Z) : occurs "009" (str_repeat " " n) = false.
Proof.
  unfold str_repeat. induction (Z.to_nat n) as [|k IH]; [done|]. simpl.
  by change (" " +:+ ?s) with (String " " s).
Qed.

(** No tab is left once tabs are expanded. *)
Lemma occurs_expandtabs (column : nat) (s : string) :
  occurs "009" (expandtabs_from 8 column s) = false.
Proof.
  revert column. induction s as [|c s IH]; intros column; [done|]. simpl.
  destruct (decide (c = "009"%char)) as [->|Hc].
  - by rewrite occurs_app, occurs_spaces, IH.
  - simpl. by rewrite IH, bool_decide_eq_false_2.
Qed.

(** Without a tab there is nothing to expand. *)
Lemma expandtabs_no_tab (tabsize column : nat) (s : string) :
  occurs "009" s = false → expandtabs_from tabsize column s = s.
Proof.
  revert column. induction s as [|c s IH]; intros column; [done|]. simpl.
  intros [Hc Hs]%orb_false_iff. apply bool_decide_eq_false in Hc.
  rewrite decide_False by done. by rewrite IH.
Qed.

Lemma len_str_repeat_char (c : ascii) (n : Z) :
  len (str_repeat (String c EmptyString) n) = Z.max 0 n.
Proof.
  unfold str_repeat, len.
  assert (∀ k, String.length
    (Nat.iter k (String.append (String c EmptyString)) EmptyString) = k)
    as Hiter.
  { induction k as [|k IH]; [done|]. simpl. f_equal. exact IH. }
  rewrite Hiter. lia.
Qed.

(** A row is as long as the box is wide when its text fits. *)
Lemma len_inner (width padding : Z) (text : string) :
  (0 <= padding)%Z → (len text <= width - padding * 2 - 2)%Z →
  len (inner width padding text) = width.
Proof.
  intros Hpadding Hfit. unfold inner.
  rewrite !len_app, !(len_str_repeat_char " "). change (len "*") with 1%Z.
  lia.
Qed.

Lemma elem_of_concat {X} (x : X) (ls : list (list X)) :
  x ∈ concat ls ↔ ∃ l, x ∈ l ∧ l ∈ ls.
Proof.
  induction ls as [|l ls IH]; simpl.
  - split; [by intros ?%elem_of_nil|by intros (?&?&?%elem_of_nil)].
  - rewrite elem_of_app, IH. split.
    + intros [?|(l'&?&?)]; [exists l|exists l']; split; try done;
        [by left|by right].
    + intros (l'&?&[->|?]%elem_of_cons); [by left|right; eauto].
Qed.

Section text_box_rows.
Context (wordsep_split : string → list string).
Implicit Types (width padding : Z) (lines chunks : list string).
Implicit Types (message text line : string).

(** The lines of [wrap] for one line of the message. *)
Local Abbreviation wrapped width text :=
  (wrap_loop (length (split_chunks wordsep_split text)) width []
     (split_chunks wordsep_split text)) (only parsing).

(** The rows of text [message_box] prints for a message. *)
Local Abbreviation text_rows width message :=
  (concat
     (map (λ line : list string,
             if bool_decide (length line = 0) then str_iter " " else line)
        (map (λ text, wrapped width text) (str_split "010" message))))
  (only parsing).

Lemma wrap_loop_keeps_text width chunks :
  concat (map non_space (wrap_loop (length chunks) width [] chunks))
  = concat (map non_space chunks).
Proof.
  pose proof (wrap_loop_invariant
    (λ lines rest, concat (map non_space lines) ++ concat (map non_space rest)
                   = concat (map non_space chunks)) width) as Hinv.
  rewrite <-(app_nil_r (concat (map non_space (wrap_loop _ _ _ _)))).
  apply Hinv; [|done..]. clear Hinv. intros lines rest _ <-.
  pose proof (wrap_line_spec width lines rest) as Hspec.
  set (rest' := (wrap_line width lines rest).1) in *.
  set (lines' := (wrap_line width lines rest).2) in *.
  clearbody rest' lines'.
  destruct Hspec
    as (lead&cur&trail&->&Hlead&Htrail&->&_).
  rewrite !map_app, !concat_app.
  rewrite (non_space_dropped lead), (non_space_dropped trail) by done.
  simpl. case_bool_decide as Hcur.
  - rewrite map_app, concat_app. simpl.
    by rewrite non_space_concat, app_nil_r, <-app_assoc.
  - by subst cur.
Qed.

Lemma wrap_loop_fits width chunks :
  (0 <= width)%Z →
  Forall (λ line, (len line <= width)%Z ∨
                  ((width < len line)%Z ∧ line ∈ chunks))
         (wrap_loop (length chunks) width [] chunks).
Proof.
  intros Hwidth.
  pose proof (wrap_loop_invariant
    (λ lines rest,
       Forall (λ line, (len line <= width)%Z ∨
                       ((width < len line)%Z ∧ line ∈ chunks)) lines ∧
       rest ⊆ chunks) width) as Hinv.
  apply Hinv; [|done|by split]. clear Hinv. intros lines rest _ [Hlines Hsub].
  pose proof (wrap_line_spec width lines rest) as Hspec.
  set (rest' := (wrap_line width lines rest).1) in *.
  set (lines' := (wrap_line width lines rest).2) in *.
  clearbody rest' lines'.
  destruct Hspec
    as (lead&cur&trail&->&_&_&->&Hfit).
  split.
  - case_bool_decide; [|done]. apply Forall_app. split; [done|].
    constructor; [|done]. destruct (Hfit Hwidth) as [Hlen|(chunk&->&Hlong)].
    + left. by rewrite len_concat.
    + right. split; [done|]. apply Hsub.
      apply elem_of_app. right. by left.
  - intros chunk Hchunk. apply Hsub.
    do 3 (apply elem_of_app; right). done.
Qed.

Lemma wrap_loop_no_tab width chunks :
  Forall (λ chunk, occurs "009" chunk = false) chunks →
  Forall (λ line, occurs "009" line = false)
         (wrap_loop (length chunks) width [] chunks).
Proof.
  intros Hchunks.
  pose proof (wrap_loop_invariant
    (λ lines rest,
       Forall (λ line, occurs "009" line = false) lines ∧
       Forall (λ chunk, occurs "009" chunk = false) rest) width) as Hinv.
  apply Hinv; [|done|by split]. clear Hinv. intros lines rest _ [Hlines Hrest].
  pose proof (wrap_line_spec width lines rest) as Hspec.
  set (rest' := (wrap_line width lines rest).1) in *.
  set (lines' := (wrap_line width lines rest).2) in *.
  clearbody rest' lines'.
  destruct Hspec
    as (lead&cur&trail&->&_&_&->&_).
  apply Forall_app in Hrest as [_ [Hcur [_ Hrest]%Forall_app]%Forall_app].
  split; [|done]. case_bool_decide; [|done].
  apply Forall_app. split; [done|]. constructor; [|done].
  by apply occurs_concat.
Qed.
Lemma split_chunks_text text :
  (∀ text, String.concat "" (wordsep_split text) = text) →
  concat (map non_space (split_chunks wordsep_split text)) = non_space text.
Proof.
  intros Hsplit. unfold split_chunks.
  by rewrite non_space_filter_empty, <-non_space_concat, Hsplit,
    non_space_expandtabs.
Qed.

Lemma split_chunks_no_tab text :
  (∀ text, String.concat "" (wordsep_split text) = text) →
  Forall (λ chunk, occurs "009" chunk = false)
         (split_chunks wordsep_split text).
Proof.
  intros Hsplit. unfold split_chunks.
  pose proof (occurs_expandtabs 0 text) as Htab.
  rewrite <-(Hsplit (expandtabs_from 8 0 text)) in Htab.
  apply occurs_concat in Htab. rewrite Forall_forall in Htab.
  apply Forall_forall. intros chunk [_ Hin]%list_elem_of_filter. auto.
Qed.

(** X17. Every line of the message, an empty one too, gives at least one
    row of the box. *)
Theorem message_box_rows_per_line message width padding :
  (padding * 2 + 2 < width)%Z →
  length (str_split "010" message) + 4
  ≤ length (trace (message_box wordsep_split message width padding)).
Proof.
  intros Hwidth. rewrite message_box_positive by done. simpl.
  rewrite length_app, length_map. simpl.
  induction (str_split "010" message) as [|text texts IH]; simpl; [lia|].
  rewrite length_app. case_bool_decide as Hempty.
  - simpl. lia.
  - lia.
Qed.

(** X18. The box shows the text of the message: the characters of the rows
    that are not whitespace are those of the message, in order. *)
Theorem message_box_keeps_text message width padding :
  (∀ text, String.concat "" (wordsep_split text) = text) →
  (padding * 2 + 2 < width)%Z →
  ∃ texts,
    message_box wordsep_split message width padding
    = Eff ([str_repeat "=" width; inner width padding ""]
           ++ map (inner width padding) texts
           ++ [inner width padding ""; str_repeat "=" width])
          (Ok true) ∧
    concat (map non_space texts) = non_space message.
Proof.
  intros Hsplit Hwidth.
  exists (map expandtabs (text_rows (width - padding * 2 - 2)%Z message)).
  split.
  { rewrite message_box_positive by done.
    by rewrite (map_map expandtabs (inner width padding)). }
  rewrite <-non_space_split_lines.
  induction (str_split "010" message) as [|text texts IH]; [done|]. simpl.
  rewrite map_app, map_app, concat_app, IH. f_equal.
  rewrite <-(split_chunks_text text Hsplit).
  rewrite <-(wrap_loop_keeps_text (width - padding * 2 - 2)
               (split_chunks wordsep_split text)).
  set (lines := wrap_loop _ _ _ _). clearbody lines.
  case_bool_decide as Hempty.
  - apply length_zero_iff_nil in Hempty. by subst lines.
  - rewrite map_map. f_equal. apply map_ext. intros line.
    apply non_space_expandtabs.
Qed.

(** X19. When no word of the message is longer than the room between the
    paddings, every line of the box is exactly [width] characters long. *)
Theorem message_box_rectangular message width padding :
  (∀ text, String.concat "" (wordsep_split text) = text) →
  (0 <= padding)%Z → (padding * 2 + 2 < width)%Z →
  (∀ text chunk,
     text ∈ str_split "010" message →
     chunk ∈ split_chunks wordsep_split text →
     (len chunk <= width - padding * 2 - 2)%Z) →
  ∀ row, row ∈ trace (message_box wordsep_split message width padding) →
         len row = width.
Proof.
  intros Hsplit Hpadding Hwidth Hwords row.
  rewrite message_box_positive by done. simpl.
  assert (len (str_repeat "=" width) = width) as Hborder.
  { rewrite (len_str_repeat_char "="). lia. }
  assert (len (inner width padding "") = width) as Hblank.
  { apply len_inner; [done|]. change (len "") with 0%Z. lia. }
  intros [->|[->|[Hrow|Hrow]%elem_of_app]%elem_of_cons]%elem_of_cons;
    [done|done| |].
  - apply list_elem_of_fmap in Hrow as (line&->&Hline).
    apply elem_of_concat in Hline as (lines&Hline&Hlines).
    apply list_elem_of_fmap in Hlines as (wrapped_lines&->&Hlines).
    apply list_elem_of_fmap in Hlines as (text&->&Htext).
    case_bool_decide as Hempty.
    + apply list_elem_of_singleton in Hline as ->.
      apply len_inner; [done|]. change (len (expandtabs " ")) with 1%Z. lia.
    + pose proof (wrap_loop_fits (width - padding * 2 - 2)
        (split_chunks wordsep_split text) ltac:(lia)) as Hfit.
      pose proof (wrap_loop_no_tab (width - padding * 2 - 2) _
        (split_chunks_no_tab text Hsplit)) as Htab.
      rewrite Forall_forall in Hfit, Htab.
      unfold expandtabs. rewrite expandtabs_no_tab by auto.
      apply len_inner; [done|].
      destruct (Hfit line Hline) as [|[Hlong Hchunk]]; [done|].
      by apply (Hwords text).
  - by repeat (apply elem_of_cons in Hrow as [->|Hrow]);
      [..|apply elem_of_nil in Hrow].
Qed.
End text_box_rows.

Lemma message_box_rows_per_line_witness :
  length (str_split "010" "Hello World") + 4
  ≤ length (trace (message_box wordsep_split_plain "Hello World" 20 3)).
Proof.
  apply (message_box_rows_per_line wordsep_split_plain "Hello World" 20 3).
  lia.
Defined.

Lemma message_box_keeps_text_witness :
  ∃ texts,
    message_box wordsep_split_plain "Hello World" 12 3
    = Eff ([str_repeat "=" 12; inner 12 3 ""]
           ++ map (inner 12 3) texts
           ++ [inner 12 3 ""; str_repeat "=" 12])
          (Ok true) ∧
    concat (map non_space texts) = non_space "Hello World".
Proof.
  apply (message_box_keeps_text wordsep_split_plain "Hello World" 12 3).
  - apply wordsep_split_plain_concat.
  - lia.
Defined.

Lemma message_box_rectangular_witness :
  len (inner 20 3 "Hello World") = 20%Z.
Proof.
  apply (message_box_rectangular wordsep_split_plain "Hello World" 20 3).
  - apply wordsep_split_plain_concat.
  - lia.
  - lia.
  - intros text chunk Htext Hchunk.
    apply list_elem_of_singleton in Htext as ->.
    repeat (apply elem_of_cons in Hchunk as [->|Hchunk]);
      [vm_compute; discriminate..|by apply elem_of_nil in Hchunk].
  - do 2 right. by left.
Defined.

Lemma required_app_witness :
  required only_colour_installed (["NetworkX"] ++ ["OpenImageIO"])
    (λ x : nat, Ok (x + 1)) 3
  = required only_colour_installed ["NetworkX"] (λ x : nat, Ok (x + 1)) 3.
Proof.
  by refine (proj2 (required_app only_colour_installed ["NetworkX"]
                      ["OpenImageIO"] (λ x : nat, Ok (x + 1)) 3) _ _).
Defined.

(** ** PatternRewriter: patterns in sequence *)

(** X20. Rewriting with one list of patterns followed by another is
    rewriting with the first and then, on its result, with the second; when
    [re.sub] raises on a pattern, that exception is the outcome and the
    patterns after it are not applied. *)
Theorem multi_replace_app
    (re_sub : string → string → string → result string)
    (name : string) (patterns patterns' : list (string * string)) :
  multi_replace re_sub name (patterns ++ patterns')
  = multi_replace re_sub name patterns
    ≫= (λ name', multi_replace re_sub name' patterns') ∧
  (∀ e, multi_replace re_sub name patterns = Raise e →
        multi_replace re_sub name (patterns ++ patterns') = Raise e).
Proof.
  assert (multi_replace re_sub name (patterns ++ patterns')
    = multi_replace re_sub name patterns
      ≫= (λ name', multi_replace re_sub name' patterns')) as Happ.
  { revert name. induction patterns as [|[p r] patterns IH]; intros name;
      simpl; [done|].
    destruct (re_sub p r name) as [name'|e]; simpl; [apply IH|done]. }
  split; [done|]. intros e Hraise. by rewrite Happ, Hraise.
Qed.

Lemma multi_replace_app_witness :
  multi_replace re_sub_within_fragment "weak"
    ([("(", "x")] ++ [("weak", "strong")])
  = Raise (re_error "outside the modelled fragment").
Proof.
  by refine (proj2 (multi_replace_app re_sub_within_fragment "weak"
                      [("(", "x")] [("weak", "strong")]) _ _).
Defined.
